(** * goose-visualizer: protocol adapter, spatial grid and animation engine

    A shallow embedding of the event-driven core of the visualizer
    (src/core/MCPAdapter.ts, src/core/IsometricGrid.ts,
    src/utils/IsometricUtils.ts, src/utils/EventEmitter.ts and the
    animation engine of src/core/VisualizationTheme.ts), followed by the properties
    the design document states about it. *)

From Stdlib Require Import ZArith QArith Qround Lqa Lia.
From stdpp Require Import gmap strings list sorting pretty.

(** ** JavaScript numbers

    A [number] is modelled as an exact rational extended with the IEEE 754
    special values the code can produce through division ([Infinity],
    [-Infinity], [NaN]).  Finite arithmetic is exact: rounding to 53 bits,
    overflow and the sign of zero are not modelled. *)
Module JSNum.

Inductive num : Type :=
| Fin (q : Q)
| PInf
| NInf
| NaN.

Definition of_Z (n : Z) : num := Fin (inject_Z n).

Definition zero : num := of_Z 0.
Definition one : num := of_Z 1.
Definition two : num := of_Z 2.

(** Sign of a rational: [Lt], [Eq] or [Gt] with respect to zero. *)
Definition sgn (q : Q) : comparison := (q ?= 0)%Q.

Definition neg (a : num) : num :=
  match a with
  | Fin q => Fin (Qred (- q))
  | PInf => NInf
  | NInf => PInf
  | NaN => NaN
  end.

Definition add (a b : num) : num :=
  match a, b with
  | NaN, _ | _, NaN => NaN
  | Fin p, Fin q => Fin (Qred (p + q))
  | PInf, NInf | NInf, PInf => NaN
  | PInf, _ | _, PInf => PInf
  | NInf, _ | _, NInf => NInf
  end.

Definition sub (a b : num) : num := add a (neg b).

(** An infinity scaled by a value of the given sign. *)
Definition scale_inf (positive : bool) (s : comparison) : num :=
  match s with
  | Eq => NaN
  | Gt => if positive then PInf else NInf
  | Lt => if positive then NInf else PInf
  end.

Definition mul (a b : num) : num :=
  match a, b with
  | NaN, _ | _, NaN => NaN
  | Fin p, Fin q => Fin (Qred (p * q))
  | Fin p, PInf | PInf, Fin p => scale_inf true (sgn p)
  | Fin p, NInf | NInf, Fin p => scale_inf false (sgn p)
  | PInf, PInf | NInf, NInf => PInf
  | PInf, NInf | NInf, PInf => NInf
  end.

(** [a / b]: a finite non-zero value over zero is an infinity, [0 / 0]
    is [NaN]; a zero divisor counts as [+0]. *)
Definition div (a b : num) : num :=
  match a, b with
  | NaN, _ | _, NaN => NaN
  | Fin p, Fin q =>
      match sgn q with
      | Eq => scale_inf true (sgn p)
      | _ => Fin (Qred (p / q))
      end
  | Fin _, (PInf | NInf) => zero
  | (PInf | NInf), (PInf | NInf) => NaN
  | PInf, Fin q => match sgn q with Lt => NInf | _ => PInf end
  | NInf, Fin q => match sgn q with Lt => PInf | _ => NInf end
  end.

(** [a <= b] as the JavaScript relational operator: [false] on [NaN]. *)
Definition leb (a b : num) : bool :=
  match a, b with
  | NaN, _ | _, NaN => false
  | NInf, _ | _, PInf => true
  | PInf, _ | _, NInf => false
  | Fin p, Fin q => Qle_bool p q
  end.

Definition geb (a b : num) : bool := leb b a.


(** [Math.min(a, b)]. *)
Definition min (a b : num) : num :=
  match a, b with
  | NaN, _ | _, NaN => NaN
  | _, _ => if leb a b then a else b
  end.

(** [Math.round(a)]: the nearest integer, ties towards [+Infinity]. *)
Definition round (a : num) : num :=
  match a with
  | Fin q => of_Z (Qfloor (q + (1 # 2)))
  | _ => a
  end.

(** [a || b] on numbers: [0] and [NaN] are falsy. *)
Definition or_else (a : option num) (b : num) : num :=
  match a with
  | Some (Fin q) => match sgn q with Eq => b | _ => Fin q end
  | Some NaN | None => b
  | Some v => v
  end.

End JSNum.

Export JSNum.

Declare Scope num_scope.
Delimit Scope num_scope with num.
Bind Scope num_scope with num.
Infix "+" := add : num_scope.
Infix "-" := sub : num_scope.
Infix "*" := mul : num_scope.
Infix "/" := div : num_scope.

(** ** src/core/types.ts *)

(** [Position]: [{ x: number; y: number; z?: number }]. *)
Record Position : Type := mkPosition {
  px : num;
  py : num;
  pz : option num;
}.

(** ** src/utils/IsometricUtils.ts *)
Module IsometricUtils.

Definition gridToIso (gridX gridY tileWidth tileHeight : num) : Position :=
  let x := ((gridX - gridY) * (tileWidth / two))%num in
  let y := ((gridX + gridY) * (tileHeight / two))%num in
  mkPosition x y None.

Definition isoToGrid (screenX screenY tileWidth tileHeight : num) : Position :=
  let gridX :=
    ((screenX / (tileWidth / two) + screenY / (tileHeight / two)) / two)%num in
  let gridY :=
    ((screenY / (tileHeight / two) - screenX / (tileWidth / two)) / two)%num in
  mkPosition (round gridX) (round gridY) None.

(** Grid coordinates index arrays, so the depth is computed on integers. *)
Definition calculateDepth (gridX gridY : Z) : Z := (gridX + gridY)%Z.

End IsometricUtils.

(** ** Exceptions

    A method either returns or throws; [Thrown] carries the error message. *)
Inductive outcome (A : Type) : Type :=
| Returned (a : A)
| Thrown (error : string).
Arguments Returned {A} a.
Arguments Thrown {A} error.

#[global] Instance outcome_ret : MRet outcome := fun A a => Returned a.
#[global] Instance outcome_bind : MBind outcome := fun A B f m =>
  match m with
  | Returned a => f a
  | Thrown e => Thrown e
  end.

(** ** The object heap

    Visual entities are JavaScript objects shared by reference between a
    theme's entity table, the cells of the grid and the callers.  A [loc] is
    such a reference and the heap maps each live reference to the object's
    current fields. *)
Abbreviation loc := nat (only parsing).

(** A value handed to the animation engine: a number, a position object or
    any other object (such as [{ value: 1.0 }] or the empty object). *)
Inductive value : Type :=
| VNum (n : num)
| VPos (p : Position)
| VObj.

(** What a scalar presentation field holds after an interpolation step: a
    number, or the string produced when [+] meets an object. *)
Inductive scalar : Type :=
| SNum (n : num)
| SStr (s : string).

(** [AnimationProperty<T>]. *)
Record AnimationProperty : Type := mkAnimationProperty {
  ap_start : value;
  ap_end : value;
  ap_current : value;
}.

(** A completion callback is an opaque closure: it is identified by a tag
    and each invocation is recorded.  What the closure does when it runs is
    its own business and is not followed. *)
Definition callback : Type := nat.

(** [AnimationState].  [properties] is a JavaScript object used as a map from
    property name to triple, enumerated in insertion order. *)
Record AnimationState : Type := mkAnimationState {
  active : bool;
  duration : num;
  elapsed : num;
  properties : list (string * AnimationProperty);
  onComplete : option callback;
}.

(** [VisualEntity], restricted to the fields the grid and the animation
    engine read or write. *)
Record VisualEntity : Type := mkVisualEntity {
  id : string;
  position : Position;
  rotation : option scalar;
  scale : option scalar;
  opacity : option scalar;
  zIndex : option num;
  animation : option AnimationState;
}.

Abbreviation heap := (gmap loc VisualEntity) (only parsing).

Definition set_position (p : Position) (e : VisualEntity) : VisualEntity :=
  mkVisualEntity (id e) p (rotation e) (scale e) (opacity e) (zIndex e) (animation e).
Definition set_rotation (v : option scalar) (e : VisualEntity) : VisualEntity :=
  mkVisualEntity (id e) (position e) v (scale e) (opacity e) (zIndex e) (animation e).
Definition set_scale (v : option scalar) (e : VisualEntity) : VisualEntity :=
  mkVisualEntity (id e) (position e) (rotation e) v (opacity e) (zIndex e) (animation e).
Definition set_opacity (v : option scalar) (e : VisualEntity) : VisualEntity :=
  mkVisualEntity (id e) (position e) (rotation e) (scale e) v (zIndex e) (animation e).
Definition set_zIndex (v : option num) (e : VisualEntity) : VisualEntity :=
  mkVisualEntity (id e) (position e) (rotation e) (scale e) (opacity e) v (animation e).
Definition set_animation (a : option AnimationState) (e : VisualEntity) : VisualEntity :=
  mkVisualEntity (id e) (position e) (rotation e) (scale e) (opacity e) (zIndex e) a.

(** ** JavaScript arrays with holes

    [arr[i] = v] overwrites inside the array and otherwise extends it, leaving
    holes ([None]) below [i]. *)
Definition array_set {A : Type} (arr : list (option A)) (i : nat) (v : A)
  : list (option A) :=
  if decide (i < length arr) then <[i := Some v]> arr
  else arr ++ replicate (i - length arr) None ++ [Some v].

(** [arr[i]]: [None] for a hole and for an index past the end. *)
Definition array_get {A : Type} (arr : list (option A)) (i : nat) : option A :=
  mjoin (arr !! i).

(** [arr.findIndex(pred)]. *)
Fixpoint findIndex {A : Type} (pred : A -> bool) (arr : list A) : option nat :=
  match arr with
  | [] => None
  | a :: rest => if pred a then Some 0 else S <$> findIndex pred rest
  end.



(** ** src/core/IsometricGrid.ts *)
Module IsometricGrid.
Import IsometricUtils.

Inductive CellType : Type := floor | wall | object | empty.

Record GridCell : Type := mkGridCell {
  cell_x : Z;
  cell_y : Z;
  cell_z : Z;
  walkable : bool;
  entities : list loc;
  type : CellType;
}.

(** [GridConfig].  Cell counts and cell coordinates are integers: they
    bound loops and index arrays. *)
Record GridConfig : Type := mkGridConfig {
  width : Z;
  height : Z;
  tileWidth : num;
  tileHeight : num;
  originX : option num;
  originY : option num;
}.

Record t : Type := mkGrid {
  grid : list (list (list (option GridCell)));
  config : GridConfig;
}.

Definition set_grid (cells : list (list (list (option GridCell)))) (g : t) : t :=
  mkGrid cells (config g).

Definition initializeGrid (cfg : GridConfig) : list (list (list (option GridCell))) :=
  (fun x =>
     (fun y => [Some (mkGridCell x y 0 true [] floor)]) <$> seqZ 0 (height cfg))
  <$> seqZ 0 (width cfg).

(** [new IsometricGrid(config)]. *)
Definition new (cfg : GridConfig) : outcome t :=
  let config :=
    mkGridConfig (width cfg) (height cfg) (tileWidth cfg) (tileHeight cfg)
      (Some (or_else (originX cfg) zero)) (Some (or_else (originY cfg) zero)) in
  Returned (mkGrid (initializeGrid config) config).

Definition isInBounds (g : t) (x y z : Z) : bool :=
  (0 <=? x)%Z && (x <? width (config g))%Z &&
  (0 <=? y)%Z && (y <? height (config g))%Z && (0 <=? z)%Z.

(** [this.grid[x][y]]: reading through a missing row or column is a
    [TypeError]. *)
Definition column (g : t) (x y : Z) : outcome (list (option GridCell)) :=
  match grid g !! Z.to_nat x with
  | None => Thrown "TypeError: cannot read properties of undefined"
  | Some row =>
      match row !! Z.to_nat y with
      | None => Thrown "TypeError: cannot read properties of undefined"
      | Some col => Returned col
      end
  end.

(** [this.grid[x][y][z] = cell], also the write-back of a cell object that
    was mutated in place. *)
Definition set_cell (g : t) (x y z : Z) (cell : GridCell) : t :=
  set_grid
    (alter (alter (fun col => array_set col (Z.to_nat z) cell) (Z.to_nat y))
       (Z.to_nat x) (grid g)) g.

Definition getCell (g : t) (x y z : Z) : outcome (t * option GridCell) :=
  if negb (isInBounds g x y z) then Returned (g, None)
  else
    col ← column g x y;
    match array_get col (Z.to_nat z) with
    | Some cell => Returned (g, Some cell)
    | None =>
        let cell :=
          mkGridCell x y z (z =? 0)%Z [] (if (z =? 0)%Z then floor else empty) in
        Returned (set_cell g x y z cell, Some cell)
    end.

Definition gridToScreen (g : t) (x y z : Z) : Position :=
  let cfg := config g in
  let isoPos := gridToIso (of_Z x) (of_Z y) (tileWidth cfg) (tileHeight cfg) in
  mkPosition
    (px isoPos + default NaN (originX cfg))%num
    (py isoPos + default NaN (originY cfg) - (of_Z z * tileHeight cfg / two))%num
    (Some (of_Z z)).

Definition screenToGrid (g : t) (x y : num) : Position :=
  let cfg := config g in
  let adjustedX := (x - default NaN (originX cfg))%num in
  let adjustedY := (y - default NaN (originY cfg))%num in
  isoToGrid adjustedX adjustedY (tileWidth cfg) (tileHeight cfg).

Definition placeEntity (h : heap) (g : t) (entity : loc) (x y z : Z)
  : outcome (heap * t * bool) :=
  '(g, cell) ← getCell g x y z;
  match cell with
  | None => Returned (h, g, false)
  | Some cell =>
      let screenPos := gridToScreen g x y z in
      let h :=
        alter (fun e =>
                 set_zIndex (Some (of_Z (calculateDepth x y + z * 100)))
                   (set_position screenPos e)) entity h in
      let cell :=
        mkGridCell (cell_x cell) (cell_y cell) (cell_z cell) (walkable cell)
          (entities cell ++ [entity]) (type cell) in
      Returned (h, set_cell g x y z cell, true)
  end.

(** [e.id === entityId] for the object behind a reference. *)
Definition has_id (h : heap) (entityId : string) (e : loc) : bool :=
  match h !! e with
  | Some ent => bool_decide (id ent = entityId)
  | None => false
  end.

(** The three nested loops of [removeEntity], innermost first: the result
    is the structure after the first match was spliced out, or [None] when
    the scan reaches the end without a match. *)
Fixpoint remove_in_column (h : heap) (entityId : string)
    (col : list (option GridCell)) : option (list (option GridCell)) :=
  match col with
  | [] => None
  | None :: rest => (fun r => None :: r) <$> remove_in_column h entityId rest
  | Some cell :: rest =>
      match findIndex (has_id h entityId) (entities cell) with
      | Some entityIndex =>
          Some (Some (mkGridCell (cell_x cell) (cell_y cell) (cell_z cell)
                        (walkable cell) (delete entityIndex (entities cell))
                        (type cell)) :: rest)
      | None => (fun r => Some cell :: r) <$> remove_in_column h entityId rest
      end
  end.

Fixpoint remove_in_row (h : heap) (entityId : string)
    (row : list (list (option GridCell))) : option (list (list (option GridCell))) :=
  match row with
  | [] => None
  | col :: rest =>
      match remove_in_column h entityId col with
      | Some col' => Some (col' :: rest)
      | None => (fun r => col :: r) <$> remove_in_row h entityId rest
      end
  end.

Fixpoint remove_in_grid (h : heap) (entityId : string)
    (rows : list (list (list (option GridCell))))
  : option (list (list (list (option GridCell)))) :=
  match rows with
  | [] => None
  | row :: rest =>
      match remove_in_row h entityId row with
      | Some row' => Some (row' :: rest)
      | None => (fun r => row :: r) <$> remove_in_grid h entityId rest
      end
  end.

Definition removeEntity (h : heap) (g : t) (entityId : string) : t * bool :=
  match remove_in_grid h entityId (grid g) with
  | Some cells => (set_grid cells g, true)
  | None => (g, false)
  end.

Definition setWalkable (g : t) (x y z : Z) (w : bool) : outcome t :=
  '(g, cell) ← getCell g x y z;
  match cell with
  | Some cell =>
      Returned (set_cell g x y z
                  (mkGridCell (cell_x cell) (cell_y cell) (cell_z cell) w
                     (entities cell) (type cell)))
  | None => Returned g
  end.

Definition setCellType (g : t) (x y z : Z) (ty : CellType) : outcome t :=
  '(g, cell) ← getCell g x y z;
  match cell with
  | Some cell =>
      let cell :=
        mkGridCell (cell_x cell) (cell_y cell) (cell_z cell) (walkable cell)
          (entities cell) ty in
      let cell :=
        match ty with
        | wall | object =>
            mkGridCell (cell_x cell) (cell_y cell) (cell_z cell) false
              (entities cell) (type cell)
        | _ => cell
        end in
      Returned (set_cell g x y z cell)
  | None => Returned g
  end.

Definition isWalkable (g : t) (x y z : Z) : outcome (t * bool) :=
  '(g, cell) ← getCell g x y z;
  match cell with
  | Some cell => Returned (g, walkable cell)
  | None => Returned (g, false)
  end.

(** The references collected by the loops of [getAllEntities], before the
    sort. *)
Definition collect (g : t) : list loc :=
  row ← grid g; col ← row; cell ← col;
  match cell with
  | Some cell => entities cell
  | None => []
  end.



(** The shape the constructor gives the array and every method keeps:
    [width] rows of [height] columns each. *)
Definition well_formed (g : t) : Prop :=
  length (grid g) = Z.to_nat (width (config g)) /\
  Forall (fun row => length row = Z.to_nat (height (config g))) (grid g).

(** The cell stored at array indices [i], [j], [k], if any. *)
Definition cell_at (g : t) (i j k : nat) : option GridCell :=
  row ← grid g !! i; col ← row !! j; array_get col k.

(** The entity behind [l] carries the finite depth key [q]. *)
Definition depth_key (h : heap) (l : loc) (q : Q) : Prop :=
  exists e, h !! l = Some e /\ zIndex e = Some (Fin q).

(** Every entity referenced from a cell carries a finite depth key. *)
Definition ranked (h : heap) (g : t) : Prop :=
  forall l, l ∈ collect g -> exists q, depth_key h l q.


End IsometricGrid.

(** [map.set(key, v)] on a JavaScript [Map] and [obj[key] = v] on an object
    used as a map: both keep insertion order, and an existing key keeps its
    place. *)
Fixpoint map_set {V : Type} (key : string) (v : V) (m : list (string * V))
  : list (string * V) :=
  match m with
  | [] => [(key, v)]
  | (k, w) :: rest =>
      if decide (key = k) then (key, v) :: rest else (k, w) :: map_set key v rest
  end.

(** [map.get(key)] and [obj[key]]. *)
Fixpoint map_get {V : Type} (key : string) (m : list (string * V)) : option V :=
  match m with
  | [] => None
  | (k, w) :: rest => if decide (key = k) then Some w else map_get key rest
  end.

(** ** The animation engine of [BaseTheme] (src/core/VisualizationTheme.ts) *)
Module BaseTheme.

(** The theme's [entities: Map<string, VisualEntity>]; the DOM container,
    the canvas size and the frame handle play no part in the engine. *)
Record t : Type := mkTheme {
  entities : list (string * loc);
}.

(** [{ ...v }]: a copy of an object; a number has no own properties and
    spreads to the empty object. *)
Definition spread (v : value) : value :=
  match v with
  | VPos p => VPos p
  | VNum _ | VObj => VObj
  end.

Definition createAnimation (h : heap) (th : t) (entity : loc) (property : string)
    (startValue endValue : value) (duration : option num)
    (onComplete : option callback) : heap * t :=
  match h !! entity with
  | None => (h, th)
  | Some e =>
      let duration := default (of_Z 500) duration in
      let anim :=
        match animation e with
        | Some a => a
        | None => mkAnimationState false duration zero [] None
        end in
      let anim :=
        mkAnimationState true duration zero
          (map_set property
             (mkAnimationProperty (spread startValue) (spread endValue)
                (spread startValue))
             (properties anim))
          onComplete in
      let e := set_animation (Some anim) e in
      (<[entity := e]> h, mkTheme (map_set (id e) entity (entities th)))
  end.

(** [start + (end - start) * progress] on numbers. *)
Definition lerp (s e progress : num) : num := (s + (e - s) * progress)%num.

(** The same expression on the values of a scalar property: an object
    operand turns the difference into [NaN], and an object on the left of
    [+] turns the sum into a string. *)
Definition lerp_scalar (s e : value) (progress : num) : scalar :=
  match s, e with
  | VNum a, VNum b => SNum (lerp a b progress)
  | VNum _, _ => SNum NaN
  | _, _ => SStr "[object Object]NaN"
  end.

(** The interpolated position: a triple whose ends are not both positions
    has no [x] and [y] to read, and [z] is written only when both ends
    carry one. *)
Definition lerp_position (current : Position) (s e : value) (progress : num)
  : Position :=
  match s, e with
  | VPos a, VPos b =>
      mkPosition (lerp (px a) (px b) progress) (lerp (py a) (py b) progress)
        match pz a, pz b with
        | Some az, Some bz => Some (lerp az bz progress)
        | _, _ => pz current
        end
  | _, _ => mkPosition NaN NaN (pz current)
  end.

(** One iteration of the loop over [Object.entries(properties)]. *)
Definition apply_property (progress : num) (e : VisualEntity)
    (entry : string * AnimationProperty) : VisualEntity :=
  let '(property, values) := entry in
  if decide (property = "position") then
    set_position
      (lerp_position (position e) (ap_start values) (ap_end values) progress) e
  else if decide (property = "scale") then
    set_scale (Some (lerp_scalar (ap_start values) (ap_end values) progress)) e
  else if decide (property = "rotation") then
    set_rotation (Some (lerp_scalar (ap_start values) (ap_end values) progress)) e
  else if decide (property = "opacity") then
    set_opacity (Some (lerp_scalar (ap_start values) (ap_end values) progress)) e
  else e.

(** [Math.min(elapsed / duration, 1)] after [elapsed += deltaTime]. *)
Definition progress_after (a : AnimationState) (deltaTime : num) : num :=
  min ((elapsed a + deltaTime) / duration a)%num one.

(** The body of the loop of [processAnimations] for one entity: the entity
    afterwards and the completion callbacks that were invoked. *)
Definition advance (deltaTime : num) (e : VisualEntity)
  : VisualEntity * list callback :=
  match animation e with
  | Some a =>
      if active a then
        let elapsed := (elapsed a + deltaTime)%num in
        let progress := progress_after a deltaTime in
        let e := foldl (apply_property progress) e (properties a) in
        if geb progress one then
          (set_animation
             (Some (mkAnimationState false (duration a) elapsed (properties a)
                      (onComplete a))) e,
           match onComplete a with
           | Some cb => [cb]
           | None => []
           end)
        else
          (set_animation
             (Some (mkAnimationState true (duration a) elapsed (properties a)
                      (onComplete a))) e,
           [])
      else (e, [])
  | None => (e, [])
  end.

(** [processAnimations(deltaTime)]: the heap afterwards and the callbacks
    invoked, each with the entity it belonged to, in order. *)
Definition processAnimations (h : heap) (th : t) (deltaTime : num)
  : heap * list (loc * callback) :=
  foldl
    (fun '(h, invoked) '(_, entity) =>
       match h !! entity with
       | Some e =>
           let '(e, cbs) := advance deltaTime e in
           (<[entity := e]> h, invoked ++ ((fun cb => (entity, cb)) <$> cbs))
       | None => (h, invoked)
       end)
    (h, []) (entities th).

(** Successive frames: [processAnimations] once per delta. *)
Fixpoint frames (h : heap) (th : t) (deltas : list num)
  : heap * list (loc * callback) :=
  match deltas with
  | [] => (h, [])
  | deltaTime :: rest =>
      let '(h, invoked) := processAnimations h th deltaTime in
      let '(h, later) := frames h th rest in
      (h, invoked ++ later)
  end.

(** Successive calls of the loop body on one entity, one per delta. *)
Fixpoint steps (deltas : list num) (e : VisualEntity) : VisualEntity * list callback :=
  match deltas with
  | [] => (e, [])
  | deltaTime :: rest =>
      let '(e, invoked) := advance deltaTime e in
      let '(e, later) := steps rest e in
      (e, invoked ++ later)
  end.

End BaseTheme.

(** ** src/core/MCPAdapter.ts with src/utils/EventEmitter.ts *)
Module MCPAdapter.

Inductive AgentState : Type :=
| IDLE | ACTIVE | THINKING | WORKING | WAITING | DISCONNECTED.

Inductive TaskState : Type :=
| PENDING | ASSIGNED | IN_PROGRESS | COMPLETED | CANCELLED.

Record Agent : Type := mkAgent {
  agent_id : string;
  agent_name : string;
  agent_color : string;
  agent_state : AgentState;
  agent_position : option Position;
  agent_createdAt : Z;
  agent_lastActive : Z;
}.

Record Message : Type := mkMessage {
  message_id : string;
  message_senderId : string;
  message_content : string;
  message_timestamp : Z;
}.

Record Task : Type := mkTask {
  task_id : string;
  task_description : string;
  task_state : TaskState;
  task_assignedTo : option string;
  task_createdAt : Z;
  task_completedAt : option Z;
}.

(** The parsed payload, [data = JSON.parse(event.data)]: a [type] tag and
    the fields the handlers read, each of which may be missing. *)
Record AgentData : Type := mkAgentData {
  data_agent_id : string;
  data_agent_name : option string;
  data_agent_color : option string;
}.

Record MessageData : Type := mkMessageData {
  data_message_senderId : string;
  data_message_content : string;
}.

Record TaskData : Type := mkTaskData {
  data_task_id : string;
  data_task_description : string;
}.

Record Data : Type := mkData {
  data_type : string;
  data_agent : option AgentData;
  data_message : option MessageData;
  data_task : option TaskData;
  data_agentId : option string;
  data_taskId : option string;
  data_position : option Position;
}.

(** [changes: Partial<Agent>] and [changes: Partial<Task>]. *)
Record AgentChanges : Type := mkAgentChanges {
  changes_agent_state : option AgentState;
  changes_agent_position : option Position;
  changes_agent_lastActive : option Z;
}.

Record TaskChanges : Type := mkTaskChanges {
  changes_task_state : option TaskState;
  changes_task_assignedTo : option string;
  changes_task_completedAt : option Z;
  changes_task_position : option Position;
}.

(** The events the adapter emits; an object payload is recorded with the
    fields it has when the event is emitted. *)
Inductive Event : Type :=
| AgentRegisteredEvent (agent : Agent) (timestamp : Z)
| AgentLeftEvent (agentId : string) (timestamp : Z)
| AgentStateChangedEvent (agentId : string) (oldState newState : AgentState)
    (timestamp : Z)
| AgentUpdatedEvent (agent : Agent) (changes : AgentChanges) (timestamp : Z)
| AgentMovedEvent (agentId : string) (position : option Position) (timestamp : Z)
| MessageAddedEvent (message : Message) (timestamp : Z)
| MessagesClearedEvent (timestamp : Z)
| TaskAddedEvent (task : Task) (timestamp : Z)
| TaskAssignedEvent (taskId : string) (agentId : option string) (timestamp : Z)
| TaskCompletedEvent (taskId : string) (timestamp : Z)
| TaskUpdatedEvent (task : Task) (changes : TaskChanges) (timestamp : Z)
| TaskMovedEvent (taskId : string) (position : option Position) (timestamp : Z)
| SystemResetEvent (timestamp : Z)
| CustomEvent (data : Data) (timestamp : Z).

(** [event.type], with the strings of src/events/EventTypes.ts. *)
Definition event_type (ev : Event) : string :=
  match ev with
  | AgentRegisteredEvent _ _ => "agent:registered"
  | AgentLeftEvent _ _ => "agent:left"
  | AgentStateChangedEvent _ _ _ _ => "agent:state_changed"
  | AgentUpdatedEvent _ _ _ => "agent:updated"
  | AgentMovedEvent _ _ _ => "agent:moved"
  | MessageAddedEvent _ _ => "message:added"
  | MessagesClearedEvent _ => "message:cleared"
  | TaskAddedEvent _ _ => "task:added"
  | TaskAssignedEvent _ _ _ => "task:assigned"
  | TaskCompletedEvent _ _ => "task:completed"
  | TaskUpdatedEvent _ _ _ => "task:updated"
  | TaskMovedEvent _ _ _ => "task:moved"
  | SystemResetEvent _ => "system:reset"
  | CustomEvent data _ => data_type data
  end.

(** Canonical state: the three private collections of the adapter. *)
Record Canonical : Type := mkCanonical {
  agents : gmap string Agent;
  messages : list Message;
  tasks : gmap string Task;
}.

(** A subscriber is an opaque function that observes; it is identified by
    a tag. *)
Definition handler : Type := nat.

(** One call of [emit]: the event, the handlers it was handed to, in
    order, and the canonical state they could read while they ran. *)
Record Emission : Type := mkEmission {
  emitted : Event;
  receivers : list handler;
  observed : Canonical;
}.

(** The adapter: canonical state, the handler table of the [EventEmitter]
    it extends, the number of readings taken so far from the clock and
    from the random source, and the history of [emit] calls. *)
Record t : Type := mkAdapter {
  canonical : Canonical;
  eventHandlers : gmap string (list handler);
  ticks : nat;
  draws : nat;
  trace : list Emission;
}.

Definition set_canonical (c : Canonical) (s : t) : t :=
  mkAdapter c (eventHandlers s) (ticks s) (draws s) (trace s).
Definition set_agents (m : gmap string Agent) (s : t) : t :=
  set_canonical (mkCanonical m (messages (canonical s)) (tasks (canonical s))) s.
Definition set_messages (l : list Message) (s : t) : t :=
  set_canonical (mkCanonical (agents (canonical s)) l (tasks (canonical s))) s.
Definition set_tasks (m : gmap string Task) (s : t) : t :=
  set_canonical (mkCanonical (agents (canonical s)) (messages (canonical s)) m) s.

(** Methods run in a state monad over the adapter. *)
Definition M (A : Type) : Type := t -> A * t.

#[global] Instance M_ret : MRet M := fun A a s => (a, s).
#[global] Instance M_bind : MBind M := fun A B f m s =>
  let '(a, s) := m s in f a s.

Definition get : M t := fun s => (s, s).
Definition modify (f : t -> t) : M unit := fun s => (tt, f s).
Definition exec {A : Type} (m : M A) (s : t) : t := snd (m s).

(** *** EventEmitter *)

Definition new : t := mkAdapter (mkCanonical ∅ [] ∅) ∅ 0 0 [].

(** [on(eventType, handler)]. *)
Definition on (eventType : string) (f : handler) : M unit :=
  modify (fun s =>
    mkAdapter (canonical s)
      (<[eventType := default [] (eventHandlers s !! eventType) ++ [f]]>
         (eventHandlers s))
      (ticks s) (draws s) (trace s)).

(** [off(eventType, handler)]: removes the first occurrence. *)
Definition off (eventType : string) (f : handler) : M unit :=
  modify (fun s =>
    match eventHandlers s !! eventType with
    | None => s
    | Some handlers =>
        match findIndex (fun g => bool_decide (g = f)) handlers with
        | Some index =>
            mkAdapter (canonical s)
              (<[eventType := delete index handlers]> (eventHandlers s))
              (ticks s) (draws s) (trace s)
        | None => s
        end
    end).

(** [emit(event)]: every handler registered for [event.type] is called in
    turn with the event, an exception in one not stopping the others. *)
Definition emit (ev : Event) : M unit :=
  modify (fun s =>
    mkAdapter (canonical s) (eventHandlers s) (ticks s) (draws s)
      (trace s ++
         [mkEmission ev (default [] (eventHandlers s !! event_type ev))
            (canonical s)])).

Definition listenerCount (eventType : string) : M nat :=
  s ← get;
  mret (match eventHandlers s !! eventType with
        | None => 0
        | Some handlers => length handlers
        end).

Section Environment.

(** The readings of [Date.now()] and of the fragment that
    [Math.random().toString(36).substring(2, 9)] yields, by the number
    of readings taken before. *)
Variable now : nat -> Z.
Variable random : nat -> string.

Definition Date_now : M Z := fun s =>
  (now (ticks s),
   mkAdapter (canonical s) (eventHandlers s) (S (ticks s)) (draws s) (trace s)).

Definition Math_random : M string := fun s =>
  (random (draws s),
   mkAdapter (canonical s) (eventHandlers s) (ticks s) (S (draws s)) (trace s)).

(** [a || b] on strings: [undefined] and the empty string are falsy. *)
Definition string_or (a : option string) (b : string) : string :=
  match a with
  | Some v => if decide (v = "") then b else v
  | None => b
  end.

(** Whether [id] is a truthy string. *)
Definition truthy (a : option string) : option string :=
  match a with
  | Some v => if decide (v = "") then None else Some v
  | None => None
  end.

(** A handler that reads a field of a missing object throws a
    [TypeError]; [handleMessage] catches and logs it, and nothing has
    been changed by then. *)
Definition thrown : M unit := mret tt.

Definition handleAgentRegistered (data : Data) : M unit :=
  match data_agent data with
  | None => thrown
  | Some a =>
      createdAt ← Date_now;
      lastActive ← Date_now;
      let agent :=
        mkAgent (data_agent_id a)
          (string_or (data_agent_name a) ("Agent " +:+ data_agent_id a))
          (string_or (data_agent_color a) "#007bff")
          IDLE None createdAt lastActive in
      modify (fun s => set_agents (<[agent_id agent := agent]> (agents (canonical s))) s);;
      timestamp ← Date_now;
      emit (AgentRegisteredEvent agent timestamp)
  end.

Definition handleAgentLeft (data : Data) : M unit :=
  match data_agent data with
  | None => thrown
  | Some a =>
      let agentId := data_agent_id a in
      s ← get;
      if decide (is_Some (agents (canonical s) !! agentId)) then
        modify (fun s => set_agents (delete agentId (agents (canonical s))) s);;
        timestamp ← Date_now;
        emit (AgentLeftEvent agentId timestamp)
      else mret tt
  end.

(** The tail shared by every handler that changes an agent's lifecycle
    state: the object is updated in place, stored back, and the
    [state_changed] and [updated] events are emitted. *)
Definition change_agent_state (agentId : string) (agent : Agent)
    (newState : AgentState) : M unit :=
  let oldState := agent_state agent in
  lastActive ← Date_now;
  let agent :=
    mkAgent (agent_id agent) (agent_name agent) (agent_color agent) newState
      (agent_position agent) (agent_createdAt agent) lastActive in
  modify (fun s => set_agents (<[agentId := agent]> (agents (canonical s))) s);;
  timestamp ← Date_now;
  emit (AgentStateChangedEvent agentId oldState newState timestamp);;
  timestamp ← Date_now;
  emit (AgentUpdatedEvent agent
          (mkAgentChanges (Some newState) None (Some lastActive)) timestamp).

Definition handleAgentWait (data : Data) : M unit :=
  match data_agent data with
  | None => thrown
  | Some a =>
      let agentId := data_agent_id a in
      s ← get;
      match agents (canonical s) !! agentId with
      | Some agent => change_agent_state agentId agent WAITING
      | None => mret tt
      end
  end.

Definition handleMessageAdded (data : Data) : M unit :=
  match data_message data with
  | None =>
      (* the [id] of the message literal is evaluated before the read of
         [data.message.senderId] throws *)
      Date_now;; Math_random;; thrown
  | Some m =>
      stamp ← Date_now;
      fragment ← Math_random;
      timestamp ← Date_now;
      let message :=
        mkMessage ("msg-" +:+ pretty stamp +:+ "-" +:+ fragment)
          (data_message_senderId m) (data_message_content m) timestamp in
      modify (fun s => set_messages (messages (canonical s) ++ [message]) s);;
      s ← get;
      match agents (canonical s) !! message_senderId message with
      | Some agent => change_agent_state (message_senderId message) agent ACTIVE
      | None => mret tt
      end;;
      timestamp ← Date_now;
      emit (MessageAddedEvent message timestamp)
  end.

Definition handleMessagesCleared : M unit :=
  modify (set_messages []);;
  timestamp ← Date_now;
  emit (MessagesClearedEvent timestamp).

Definition handleTaskAdded (data : Data) : M unit :=
  match data_task data with
  | None => thrown
  | Some d =>
      createdAt ← Date_now;
      let task :=
        mkTask (data_task_id d) (data_task_description d) PENDING None
          createdAt None in
      modify (fun s => set_tasks (<[task_id task := task]> (tasks (canonical s))) s);;
      timestamp ← Date_now;
      emit (TaskAddedEvent task timestamp)
  end.

(** [this.tasks.get(data.taskId)]: a missing [taskId] finds nothing. *)
Definition find_task (data : Data) (s : t) : option (string * Task) :=
  taskId ← data_taskId data;
  task ← tasks (canonical s) !! taskId;
  Some (taskId, task).

Definition find_agent (agentId : option string) (s : t) : option (string * Agent) :=
  agentId ← agentId;
  agent ← agents (canonical s) !! agentId;
  Some (agentId, agent).

Definition handleTaskAssigned (data : Data) : M unit :=
  let agentId := data_agentId data in
  s ← get;
  match find_task data s with
  | Some (taskId, task) =>
      let task :=
        mkTask (task_id task) (task_description task) ASSIGNED agentId
          (task_createdAt task) (task_completedAt task) in
      modify (fun s => set_tasks (<[taskId := task]> (tasks (canonical s))) s);;
      timestamp ← Date_now;
      emit (TaskAssignedEvent taskId agentId timestamp);;
      timestamp ← Date_now;
      emit (TaskUpdatedEvent task
              (mkTaskChanges (Some ASSIGNED) agentId None None) timestamp);;
      s ← get;
      match find_agent agentId s with
      | Some (agentId, agent) => change_agent_state agentId agent WORKING
      | None => mret tt
      end
  | None => mret tt
  end.

Definition handleTaskCompleted (data : Data) : M unit :=
  s ← get;
  match find_task data s with
  | Some (taskId, task) =>
      completedAt ← Date_now;
      let task :=
        mkTask (task_id task) (task_description task) COMPLETED
          (task_assignedTo task) (task_createdAt task) (Some completedAt) in
      modify (fun s => set_tasks (<[taskId := task]> (tasks (canonical s))) s);;
      timestamp ← Date_now;
      emit (TaskCompletedEvent taskId timestamp);;
      timestamp ← Date_now;
      emit (TaskUpdatedEvent task
              (mkTaskChanges (Some COMPLETED) None (Some completedAt) None)
              timestamp);;
      s ← get;
      match find_agent (truthy (task_assignedTo task)) s with
      | Some (agentId, agent) => change_agent_state agentId agent IDLE
      | None => mret tt
      end
  | None => mret tt
  end.

Definition handleAgentMoved (data : Data) : M unit :=
  let position := data_position data in
  s ← get;
  match find_agent (data_agentId data) s with
  | Some (agentId, agent) =>
      lastActive ← Date_now;
      let agent :=
        mkAgent (agent_id agent) (agent_name agent) (agent_color agent)
          (agent_state agent) position (agent_createdAt agent) lastActive in
      modify (fun s => set_agents (<[agentId := agent]> (agents (canonical s))) s);;
      timestamp ← Date_now;
      emit (AgentUpdatedEvent agent
              (mkAgentChanges None position (Some lastActive)) timestamp);;
      timestamp ← Date_now;
      emit (AgentMovedEvent agentId position timestamp)
  | None => mret tt
  end.

Definition handleTaskMoved (data : Data) : M unit :=
  let position := data_position data in
  s ← get;
  match find_task data s with
  | Some (taskId, task) =>
      modify (fun s => set_tasks (<[taskId := task]> (tasks (canonical s))) s);;
      timestamp ← Date_now;
      emit (TaskUpdatedEvent task (mkTaskChanges None None None position)
              timestamp);;
      timestamp ← Date_now;
      emit (TaskMovedEvent taskId position timestamp)
  | None => mret tt
  end.

Definition handleSystemReset : M unit :=
  modify (set_agents ∅);;
  modify (set_tasks ∅);;
  modify (set_messages []);;
  timestamp ← Date_now;
  emit (SystemResetEvent timestamp).

(** [handleMessage(event)]: [None] is a payload that [JSON.parse]
    rejects; the error is caught and logged and the message dropped. *)
Definition handleMessage (raw : option Data) : M unit :=
  match raw with
  | None => thrown
  | Some data =>
      let type := data_type data in
      if decide (type = "agent:registered") then handleAgentRegistered data
      else if decide (type = "agent:left") then handleAgentLeft data
      else if decide (type = "agent:wait") then handleAgentWait data
      else if decide (type = "agent:moved") then handleAgentMoved data
      else if decide (type = "message:added") then handleMessageAdded data
      else if decide (type = "message:cleared") then handleMessagesCleared
      else if decide (type = "task:added") then handleTaskAdded data
      else if decide (type = "task:assigned") then handleTaskAssigned data
      else if decide (type = "task:completed") then handleTaskCompleted data
      else if decide (type = "task:moved") then handleTaskMoved data
      else if decide (type = "system:reset") then handleSystemReset
      else
        timestamp ← Date_now;
        emit (CustomEvent data timestamp)
  end.

(** The emissions one inbound message adds to the history. *)
Definition emissions (raw : option Data) (s : t) : list Emission :=
  drop (length (trace s)) (trace (exec (handleMessage raw) s)).

End Environment.

End MCPAdapter.

(** ** Concrete scenarios

    The inputs at which the properties below are exercised. *)
Module Scenario.
Import MCPAdapter.

(** A clock that starts at 1000 ms and advances by one per reading, and a
    random source that always yields the same fragment. *)
Definition now : nat -> Z := fun n => (1000 + Z.of_nat n)%Z.
Definition random : nat -> string := fun _ => "k3x9q2a".

Definition alice : Agent := mkAgent "a1" "Alice" "#007bff" IDLE None 10 10.
Definition report : Task := mkTask "t1" "Write the report" PENDING None 20 None.

(** An adapter that knows agent [a1] and task [t1], after subscriber [0]
    subscribed to [task:assigned] and subscriber [1] to [agent:moved]. *)
Definition populated : t :=
  exec (on "task:assigned" 0%nat;; on "agent:moved" 1%nat)
    (mkAdapter
       (mkCanonical {[ "a1" := alice ]}
          [mkMessage "msg-5-abc" "a1" "hello" 5] {[ "t1" := report ]})
       ∅ 0 0 []).


Definition move (agentId : string) : Data :=
  mkData "agent:moved" None None None (Some agentId) None
    (Some (mkPosition (of_Z 3) (of_Z 4) None)).

Definition move_task (taskId : string) : Data :=
  mkData "task:moved" None None None None (Some taskId)
    (Some (mkPosition (of_Z 3) (of_Z 4) None)).

Definition clear_messages : Data :=
  mkData "message:cleared" None None None None None None.

(** An entity at the origin whose active animation moves it to [(100, 0)]
    over the given duration and then calls back [7]. *)
Definition origin : Position := mkPosition zero zero None.

Definition slide : AnimationProperty :=
  mkAnimationProperty (VPos origin) (VPos (mkPosition (of_Z 100) zero None))
    (VPos origin).

Definition walker (duration : num) : VisualEntity :=
  mkVisualEntity "agent-a1" origin None None None None
    (Some (mkAnimationState true duration zero [("position", slide)] (Some 7%nat))).

Definition still : VisualEntity :=
  mkVisualEntity "agent-a1" origin None None None None None.

Definition stage (e : VisualEntity) : heap := {[ 1%nat := e ]}.

Definition theme : BaseTheme.t := BaseTheme.mkTheme [("agent-a1", 1%nat)].

(** [pulseEntity] as Simple2DTheme starts it: a [scale] animation between
    two [{ value: ... }] objects, 200 ms, no callback. *)
Definition pulse (h : heap) : heap * BaseTheme.t :=
  BaseTheme.createAnimation h theme 1%nat "scale" VObj VObj (Some (of_Z 200)) None.

(** A 4 x 4 grid of 64 x 32 tiles, one with no columns at all, and two
    entities waiting to be placed. *)
Definition office : IsometricGrid.GridConfig :=
  IsometricGrid.mkGridConfig 4 4 (of_Z 64) (of_Z 32) None None.

Definition nowhere : IsometricGrid.GridConfig :=
  IsometricGrid.mkGridConfig 0 0 (of_Z 64) (of_Z 32) None None.



End Scenario.

(** ** More of the adapter and of its callers *)
Module Inbound.
Import MCPAdapter.

(** The [case] labels of the [switch] in [handleMessage]. *)
Definition known_types : list string :=
  ["agent:registered"; "agent:left"; "agent:wait"; "agent:moved"; "message:added";
   "message:cleared"; "task:added"; "task:assigned"; "task:completed"; "task:moved";
   "system:reset"].

(** The [type] strings of the events the handlers build themselves. *)
Definition domain_types : list string :=
  ["agent:registered"; "agent:left"; "agent:state_changed"; "agent:updated";
   "agent:moved"; "message:added"; "message:cleared"; "task:added"; "task:assigned";
   "task:completed"; "task:updated"; "task:moved"; "system:reset"].

(** [eventSource.onmessage = event => this.handleMessage(event)]: the
    messages of the stream are handled one after the other, in arrival
    order. *)
Fixpoint onmessages (now : nat -> Z) (random : nat -> string)
    (raws : list (option Data)) : M unit :=
  match raws with
  | [] => mret tt
  | raw :: rest => handleMessage now random raw;; onmessages now random rest
  end.

(** [GooseVisualizer.forwardEvents], the adapter half: the visualizer
    subscribes one forwarding closure under the type ['*']. *)
Definition forwardEvents (forward : handler) : M unit := on "*" forward.

(** Messages as they arrive from the server. *)
Definition register_a1 : Data :=
  mkData "agent:registered" (Some (mkAgentData "a1" (Some "Alicia") None))
    None None None None None.

Definition leave (agentId : string) : Data :=
  mkData "agent:left" (Some (mkAgentData agentId None None)) None None None None None.

Definition wait (agentId : string) : Data :=
  mkData "agent:wait" (Some (mkAgentData agentId None None)) None None None None None.

Definition say (senderId content : string) : Data :=
  mkData "message:added" None (Some (mkMessageData senderId content)) None None None
    None.

Definition add_task (taskId description : string) : Data :=
  mkData "task:added" None None (Some (mkTaskData taskId description)) None None None.

Definition assign (taskId agentId : string) : Data :=
  mkData "task:assigned" None None None (Some agentId) (Some taskId) None.

Definition complete (taskId : string) : Data :=
  mkData "task:completed" None None None None (Some taskId) None.

Definition reset : Data := mkData "system:reset" None None None None None None.

(** A message of a type the adapter has no case for, and one whose type is
    the string ["*"]. *)
Definition ping : Data := mkData "ping" None None None None None None.
Definition star : Data := mkData "*" None None None None None None.

(** An [agent:registered] message without its [agent] field. *)
Definition truncated : Data :=
  mkData "agent:registered" None None None None None None.

(** A session: an agent registers, a task is added, assigned to the agent
    and completed. *)
Definition session : list (option Data) :=
  [Some register_a1; Some (add_task "t1" "Write the report");
   Some (assign "t1" "a1"); Some (complete "t1")].

End Inbound.

(** ** What holds of the records in every reachable state *)
Module Reachable.
Import MCPAdapter.

(** An agent is filed under its own identity and is never [thinking] or
    [disconnected]. *)
Definition agent_ok (key : string) (a : Agent) : Prop :=
  agent_id a = key /\ agent_state a <> THINKING /\ agent_state a <> DISCONNECTED.

(** A task is filed under its own identity, is never [in_progress] or
    [cancelled], has neither assignee nor completion time while [pending]
    and has a completion time once [completed]. *)
Definition task_ok (key : string) (t : Task) : Prop :=
  task_id t = key /\
  task_state t <> IN_PROGRESS /\ task_state t <> CANCELLED /\
  (task_state t = PENDING -> task_assignedTo t = None /\ task_completedAt t = None) /\
  (task_state t = COMPLETED -> is_Some (task_completedAt t)).

(** The time stamps of a record are readings of the clock taken, in this
    order, among the first [n] readings. *)
Definition agent_stamped (now : nat -> Z) (n : nat) (a : Agent) : Prop :=
  exists i j, i <= j < n /\ agent_createdAt a = now i /\ agent_lastActive a = now j.

Definition task_stamped (now : nat -> Z) (n : nat) (t : Task) : Prop :=
  exists i, i < n /\ task_createdAt t = now i /\
            forall c, task_completedAt t = Some c -> exists j, i <= j < n /\ c = now j.

End Reachable.

(** The handlers subscribed to an event type, in the order [emit] calls
    them. *)
Definition subscribers (s : MCPAdapter.t) (eventType : string) : list MCPAdapter.handler :=
  default [] (MCPAdapter.eventHandlers s !! eventType).

(** A 4 x 4 grid as the constructor returns it for [Scenario.office]. *)
Module Plan.
Import IsometricGrid.

Definition config : GridConfig :=
  mkGridConfig 4 4 (of_Z 64) (of_Z 32) (Some zero) (Some zero).

Definition opened : t := mkGrid (initializeGrid config) config.

End Plan.

(** ** The rest of src/utils/IsometricUtils.ts *)
Module IsometricRoutes.
Import IsometricUtils.







(** The number of steps of that route. *)
Definition steps (startX startY endX endY : Z) : Z :=
  (Z.abs (endX - startX) + Z.abs (endY - startY))%Z.

End IsometricRoutes.

(** ** The entity table of [BaseTheme] (src/core/VisualizationTheme.ts) *)
Module ThemeEntities.
Import BaseTheme.

(** [updates: Partial<VisualEntity>], on the fields of [VisualEntity] kept
    here; a field is either absent or carries a value. *)
Record Updates : Type := mkUpdates {
  u_id : option string;
  u_position : option Position;
  u_rotation : option num;
  u_scale : option num;
  u_opacity : option num;
  u_zIndex : option num;
  u_animation : option AnimationState;
}.

(** [Object.assign(entity, updates)]. *)
Definition assign (updates : Updates) (e : VisualEntity) : VisualEntity :=
  mkVisualEntity
    (default (id e) (u_id updates))
    (default (position e) (u_position updates))
    (match u_rotation updates with Some v => Some (SNum v) | None => rotation e end)
    (match u_scale updates with Some v => Some (SNum v) | None => scale e end)
    (match u_opacity updates with Some v => Some (SNum v) | None => opacity e end)
    (match u_zIndex updates with Some v => Some v | None => zIndex e end)
    (match u_animation updates with Some a => Some a | None => animation e end).

(** [map.delete(key)]. *)
Fixpoint map_delete {V : Type} (key : string) (m : list (string * V))
  : list (string * V) :=
  match m with
  | [] => []
  | (k, w) :: rest =>
      if decide (key = k) then rest else (k, w) :: map_delete key rest
  end.

(** [updateEntity(entity, updates, animate)].  The object updated is the one
    the table holds under [entity.id], which need not be [entity] itself;
    [entity.id] is read again for the final [set]. *)
Definition updateEntity (h : heap) (th : t) (entity : nat) (updates : Updates)
    (animate : bool) : heap * t :=
  match h !! entity with
  | None => (h, th)
  | Some e =>
      let th :=
        match map_get (id e) (entities th) with
        | Some _ => th
        | None => mkTheme (map_set (id e) entity (entities th))
        end in
      match map_get (id e) (entities th) ≫= fun l => (fun ue => (l, ue)) <$> h !! l with
      | None => (h, th)
      | Some (updatedEntity, ue) =>
          let ue :=
            match (if animate then u_position updates else None) with
            | Some target =>
                let anim :=
                  match animation ue with
                  | Some a => a
                  | None => mkAnimationState false (of_Z 500) zero [] None
                  end in
                set_animation
                  (Some (mkAnimationState true (duration anim) zero
                           (map_set "position"
                              (mkAnimationProperty (VPos (position ue)) (VPos target)
                                 (VPos (position ue)))
                              (properties anim))
                           (onComplete anim))) ue
            | None => ue
            end in
          let h := <[updatedEntity := assign updates ue]> h in
          (h, mkTheme (map_set (default (id e) (id <$> h !! entity)) updatedEntity
                         (entities th)))
      end
  end.

(** [removeEntity(entityId)]. *)
Definition removeEntity (th : t) (entityId : string) : t :=
  mkTheme (map_delete entityId (entities th)).

(** How many entries of the table refer to the object. *)
Definition registrations (th : t) (entity : nat) : nat :=
  length (filter (fun entry => entry.2 = entity) (entities th)).



(** The updates of a plain move: a new position and nothing else. *)
Definition move_to (target : Position) : Updates :=
  mkUpdates None (Some target) None None None None None.

End ThemeEntities.

(** A move of the entity of [Scenario.stage]. *)
Module Move.

Definition target : Position := mkPosition (of_Z 100) (of_Z 40) None.

End Move.

(** ** [IsometricGrid.createBasicOfficeFloor] *)
Module OfficeFloor.
Import IsometricGrid.

(** A [for] loop over a range, with a body that may throw. *)
Fixpoint for_each {S A : Type} (body : S -> A -> outcome S) (range : list A) (s : S)
  : outcome S :=
  match range with
  | [] => Returned s
  | a :: rest => s ← body s a; for_each body rest s
  end.

(** [x === 0 || y === 0 || x === width - 1 || y === height - 1]. *)
Definition on_perimeter (width height x y : Z) : bool :=
  (x =? 0)%Z || (y =? 0)%Z || (x =? width - 1)%Z || (y =? height - 1)%Z.

(** The body of the inner loop. *)
Definition lay (width height : Z) (g : t) (x y : Z) : outcome t :=
  '(g, cell) ← getCell g x y 0;
  match cell with
  | None => Returned g
  | Some cell =>
      let g :=
        set_cell g x y 0
          (mkGridCell (cell_x cell) (cell_y cell) (cell_z cell) true (entities cell)
             floor) in
      if on_perimeter width height x y then
        '(g, wallCell) ← getCell g x y 1;
        match wallCell with
        | None => Returned g
        | Some wallCell =>
            Returned
              (set_cell g x y 1
                 (mkGridCell (cell_x wallCell) (cell_y wallCell) (cell_z wallCell)
                    false (entities wallCell) wall))
        end
      else Returned g
  end.

Definition createBasicOfficeFloor (g : t) : outcome t :=
  let width := width (config g) in
  let height := height (config g) in
  for_each
    (fun g x => for_each (fun g y => lay width height g x y) (seqZ 0 height) g)
    (seqZ 0 width) g.

(** What the floor plan makes of the slot of layer [k] over the ground cell
    [(x, y)]: layer 0 is walkable floor, layer 1 is a wall on the perimeter,
    everything else is as it was; the entities stay in their cells. *)
Definition laid (width height x y : Z) (k : nat) (old new : option GridCell) : Prop :=
  match k with
  | 0 =>
      exists c, new = Some c /\ type c = floor /\ walkable c = true /\
                entities c = from_option entities [] old
  | 1 =>
      if on_perimeter width height x y then
        exists c, new = Some c /\ type c = wall /\ walkable c = false /\
                  entities c = from_option entities [] old
      else new = old
  | _ => new = old
  end.

End OfficeFloor.

(** ** The configuration check of src/core/ThemeManager.ts *)
Module ThemeManager.












End ThemeManager.

(** ** Properties *)

Section NumFacts.

Lemma sgn_pos (q : Q) : (0 < q)%Q -> sgn q = Gt.
Proof.
  intros H. unfold sgn. rewrite <- Qgt_alt. exact H.
Qed.


Lemma Qfloor_half (n : Z) : Qfloor (inject_Z n + (1 # 2)) = n.
Proof.
  pose proof (Qfloor_le (inject_Z n + (1 # 2))) as Hle.
  pose proof (Qlt_floor (inject_Z n + (1 # 2))) as Hlt.
  set (f := Qfloor (inject_Z n + (1 # 2))) in *.
  rewrite inject_Z_plus in Hlt. change (inject_Z 1) with 1%Q in Hlt.
  assert (Hfn : (f < n + 1)%Z).
  { rewrite Zlt_Qlt, inject_Z_plus. change (inject_Z 1) with 1%Q. lra. }
  assert (Hnf : (n < f + 1)%Z).
  { rewrite Zlt_Qlt, inject_Z_plus. change (inject_Z 1) with 1%Q. lra. }
  lia.
Qed.

Lemma round_inject (q : Q) (n : Z) : (q == inject_Z n)%Q -> round (Fin q) = of_Z n.
Proof.
  intros H. unfold round, of_Z. do 2 f_equal.
  rewrite H. apply Qfloor_half.
Qed.

End NumFacts.

Section CoordinateMapper.
Import IsometricUtils.

Lemma div_fin_pos (p q : Q) : (0 < q)%Q -> (Fin p / Fin q)%num = Fin (Qred (p / q)).
Proof. intros Hq. unfold div. now rewrite (sgn_pos q Hq). Qed.

(** Half a positive tile dimension is a finite, positive number. *)
Lemma half_tile (t : Q) :
  (0 < t)%Q -> exists h, (Fin t / two)%num = Fin h /\ (h == t / 2)%Q /\ (0 < h)%Q.
Proof.
  intros Ht. exists (Qred (t / inject_Z 2)).
  unfold two, of_Z. rewrite div_fin_pos by reflexivity.
  split; [reflexivity|].
  rewrite Qred_correct. split; [reflexivity|].
  apply Qlt_shift_div_l; [reflexivity|lra].
Qed.

(** [isoToGrid] recovers the cell from any screen point that is exactly
    the projection of an integer cell. *)
Lemma isoToGrid_projection (gx gy : Z) (sx sy tw th : Q) :
  (0 < tw)%Q -> (0 < th)%Q ->
  (sx == (inject_Z gx - inject_Z gy) * (tw / 2))%Q ->
  (sy == (inject_Z gx + inject_Z gy) * (th / 2))%Q ->
  isoToGrid (Fin sx) (Fin sy) (Fin tw) (Fin th) = mkPosition (of_Z gx) (of_Z gy) None.
Proof.
  intros Htw Hth Hsx Hsy.
  destruct (half_tile tw Htw) as (hw & Ew & Hw & Hwpos).
  destruct (half_tile th Hth) as (hh & Eh & Hh & Hhpos).
  unfold isoToGrid. rewrite Ew, Eh.
  rewrite !div_fin_pos by assumption. cbn [sub add neg].
  unfold two, of_Z. rewrite !div_fin_pos by reflexivity.
  f_equal.
  - apply round_inject. rewrite !Qred_correct, Hsx, Hsy, Hw, Hh. field. split; lra.
  - apply round_inject. rewrite !Qred_correct, Hsx, Hsy, Hw, Hh. field. split; lra.
Qed.


(** The same round trip through the grid, on the ground layer: the origin
    offset that [gridToScreen] adds is the one [screenToGrid] removes. *)
Lemma screenToGrid_gridToScreen (g : IsometricGrid.t) (x y : Z) (tw th ox oy : Q) :
  IsometricGrid.tileWidth (IsometricGrid.config g) = Fin tw ->
  IsometricGrid.tileHeight (IsometricGrid.config g) = Fin th ->
  IsometricGrid.originX (IsometricGrid.config g) = Some (Fin ox) ->
  IsometricGrid.originY (IsometricGrid.config g) = Some (Fin oy) ->
  (0 < tw)%Q -> (0 < th)%Q ->
  let screen := IsometricGrid.gridToScreen g x y 0 in
  IsometricGrid.screenToGrid g (px screen) (py screen)
  = mkPosition (of_Z x) (of_Z y) None.
Proof.
  intros Etw Eth Eox Eoy Htw Hth.
  destruct (half_tile tw Htw) as (hw & Ew & Hw & Hwpos).
  destruct (half_tile th Hth) as (hh & Eh & Hh & Hhpos).
  unfold IsometricGrid.gridToScreen, IsometricGrid.screenToGrid, gridToIso.
  rewrite Etw, Eth, Eox, Eoy. cbn [px py default]. rewrite Ew, Eh.
  unfold of_Z at 1 2 3 4 5. cbn [sub add mul neg].
  unfold two, of_Z at 1. rewrite div_fin_pos by reflexivity. cbn [sub add mul neg].
  apply isoToGrid_projection; try assumption.
  - rewrite !Qred_correct, Hw. ring.
  - rewrite !Qred_correct, Hh. change (inject_Z 0) with 0%Q. field.
Qed.


End CoordinateMapper.

(** *** The protocol adapter *)
Section AdapterFacts.
Import MCPAdapter.

Variable now : nat -> Z.
Variable random : nat -> string.

(** Unfolds a handler into the state it returns. *)
Ltac run_handler :=
  cbv [exec handleAgentRegistered handleAgentLeft handleAgentWait
       handleAgentMoved handleMessageAdded handleMessagesCleared handleTaskAdded
       handleTaskAssigned handleTaskCompleted handleTaskMoved handleSystemReset
       change_agent_state thrown find_task find_agent
       mbind M_bind mret M_ret modify get emit Date_now Math_random option_bind
       set_agents set_messages set_tasks set_canonical
       canonical agents messages tasks eventHandlers ticks draws trace
       fst snd].

(** Selects the [case] of the [switch] that a known [type] reaches. *)
Ltac dispatch H :=
  unfold emissions, exec, handleMessage; rewrite H;
  repeat (case_decide; [discriminate|]); (case_decide; [|done]).

Lemma drop_trace {A : Type} (l k : list A) : drop (length l) (l ++ k) = k.
Proof. apply drop_app_length. Qed.

(** C10. An inbound [message:cleared] empties the message history, leaves
    the agents and the tasks as they were and emits exactly one event, the
    [message:cleared] domain event, observed with the history already
    empty. *)
Theorem message_cleared_frame (s : t) (data : Data) :
  data_type data = "message:cleared" ->
  let s' := exec (handleMessage now random (Some data)) s in
  messages (canonical s') = [] /\
  agents (canonical s') = agents (canonical s) /\
  tasks (canonical s') = tasks (canonical s) /\
  exists timestamp,
    emissions now random (Some data) s
    = [mkEmission (MessagesClearedEvent timestamp)
         (default [] (eventHandlers s !! "message:cleared")) (canonical s')].
Proof.
  intros Hty. destruct s as [[ags msgs tks] hs tk dr tr].
  cbv zeta. dispatch Hty. run_handler.
  repeat split. eexists. rewrite <- app_assoc || idtac.
  rewrite drop_trace. reflexivity.
Qed.

(** Case analysis on every scrutinee a handler inspects. *)
Ltac branch :=
  repeat (run_handler;
          match goal with
          | |- context [match ?x with _ => _ end] =>
              lazymatch x with
              | context [match _ with _ => _ end] => fail
              | _ => destruct x eqn:?
              end
          end);
  run_handler.

(** Turns membership in the emissions of a handler into one goal per
    emission. *)
Ltac each_emission em Hem :=
  rewrite <- ?app_assoc; rewrite ?drop_trace, ?drop_all;
  intros em Hem; cbn [app] in Hem;
  repeat (apply elem_of_cons in Hem; destruct Hem as [->|Hem]);
  try (apply elem_of_nil in Hem; destruct Hem).




(** C2, as the adapter forwards movements.  An inbound [agent:moved] for a
    known agent stores the position, leaves the lifecycle state and every
    other record alone and emits [agent:updated] followed by [agent:moved]
    with the same identity and position; for an unknown agent it changes
    and emits nothing.  An inbound [task:moved] never changes canonical
    state and is forwarded, as [task:updated] followed by [task:moved],
    only if the task exists. *)
Theorem moved_forwarded_iff_known (s : t) (data : Data) :
  let s' := exec (handleMessage now random (Some data)) s in
  let out := emitted <$> emissions now random (Some data) s in
  (data_type data = "agent:moved" ->
   match find_agent (data_agentId data) s with
   | Some (agentId, agent) =>
       exists lastActive t1 t2,
         let moved :=
           mkAgent (agent_id agent) (agent_name agent) (agent_color agent)
             (agent_state agent) (data_position data) (agent_createdAt agent)
             lastActive in
         canonical s'
         = mkCanonical (<[agentId := moved]> (agents (canonical s)))
             (messages (canonical s)) (tasks (canonical s)) /\
         out = [AgentUpdatedEvent moved
                  (mkAgentChanges None (data_position data) (Some lastActive)) t1;
                AgentMovedEvent agentId (data_position data) t2]
   | None => canonical s' = canonical s /\ out = []
   end) /\
  (data_type data = "task:moved" ->
   canonical s' = canonical s /\
   match find_task data s with
   | Some (taskId, task) =>
       exists t1 t2,
         out = [TaskUpdatedEvent task
                  (mkTaskChanges None None None (data_position data)) t1;
                TaskMovedEvent taskId (data_position data) t2]
   | None => out = []
   end).
Proof.
  destruct s as [[ags msgs tks] hs tk dr tr].
  destruct data as [ty da dm dt daid dtid dpos]. cbv zeta. cbv [data_type].
  split; intros ->; unfold emissions, handleMessage; cbv [data_type].
  - repeat (case_decide; [discriminate|]). case_decide; [|done].
    branch; rewrite <- ?app_assoc; rewrite ?drop_trace, ?drop_all; cbn.
    + do 3 eexists. split; reflexivity.
    + split; reflexivity.
    + split; reflexivity.
  - repeat (case_decide; [discriminate|]). case_decide; [|done].
    branch; rewrite <- ?app_assoc; rewrite ?drop_trace, ?drop_all; cbn.
    + split; [|do 2 eexists; reflexivity].
      f_equal. by apply insert_id.
    + split; reflexivity.
    + split; reflexivity.
Qed.

End AdapterFacts.

Lemma message_cleared_frame_witness :
  MCPAdapter.messages (MCPAdapter.canonical (MCPAdapter.exec (MCPAdapter.handleMessage Scenario.now Scenario.random (Some Scenario.clear_messages))
                         Scenario.populated)) = [].
Proof.
  apply (message_cleared_frame Scenario.now Scenario.random Scenario.populated Scenario.clear_messages).
  reflexivity.
Defined.




Lemma moved_forwarded_iff_known_witness :
  MCPAdapter.emitted <$>
    MCPAdapter.emissions Scenario.now Scenario.random (Some (Scenario.move_task "t9"))
      Scenario.populated
  = [].
Proof.
  destruct (moved_forwarded_iff_known Scenario.now Scenario.random
              Scenario.populated (Scenario.move_task "t9")) as [_ Htask].
  destruct (Htask eq_refl) as [_ Hout]. exact Hout.
Defined.

(** C2, as stated, fails: an [agent:moved] for an agent the adapter does not
    know is not forwarded. *)
Lemma agent_moved_dropped_when_unknown :
  ~ (exists em,
       em ∈ MCPAdapter.emissions Scenario.now Scenario.random
              (Some (Scenario.move "a7")) Scenario.populated /\
       MCPAdapter.event_type (MCPAdapter.emitted em) = "agent:moved").
Proof.
  intros (em & Hem & _). vm_compute in Hem. by apply elem_of_nil in Hem.
Qed.

(** *** The animation engine *)
Section AnimationFacts.
Import BaseTheme.

Lemma advance_inactive (deltaTime : num) (e : VisualEntity) (a : AnimationState) :
  animation e = Some a -> active a = false -> advance deltaTime e = (e, []).
Proof. intros Ha Hin. unfold advance. now rewrite Ha, Hin. Qed.

Lemma advance_no_animation (deltaTime : num) (e : VisualEntity) :
  animation e = None -> advance deltaTime e = (e, []).
Proof. intros Ha. unfold advance. now rewrite Ha. Qed.

(** The animation record after a step of an active animation. *)
Lemma advance_active (deltaTime : num) (e : VisualEntity) (a : AnimationState) :
  animation e = Some a -> active a = true ->
  let done := geb (progress_after a deltaTime) one in
  animation (advance deltaTime e).1
  = Some (mkAnimationState (negb done) (duration a) (elapsed a + deltaTime)%num
            (properties a) (onComplete a)) /\
  (advance deltaTime e).2
  = if done then match onComplete a with Some cb => [cb] | None => [] end else [].
Proof.
  intros Ha Hact. cbv zeta. unfold advance. rewrite Ha, Hact.
  destruct (geb (progress_after a deltaTime) one); cbn; split; reflexivity.
Qed.


(** What a frame does to one entity of the heap, whatever else the theme
    animates: an invariant [I] of the entity that every step of [advance]
    preserves still holds afterwards, and the callbacks invoked for the
    entity all satisfy [C] if those of such a step do. *)
Lemma processAnimations_entity (I : VisualEntity -> Prop) (C : callback -> Prop)
    (h : heap) (th : t) (deltaTime : num) (entity : loc) (e : VisualEntity) :
  (forall e0, I e0 ->
     I (advance deltaTime e0).1 /\ Forall C (advance deltaTime e0).2) ->
  h !! entity = Some e -> I e ->
  (exists e', (processAnimations h th deltaTime).1 !! entity = Some e' /\ I e') /\
  (forall cb, (entity, cb) ∈ (processAnimations h th deltaTime).2 -> C cb).
Proof.
  intros Hstep Hlook HI. unfold processAnimations.
  assert (Hinit : forall cb, (entity, cb) ∈ ([] : list (loc * callback)) -> C cb)
    by (intros cb Hin; by apply elem_of_nil in Hin).
  revert h e Hlook HI Hinit. generalize ([] : list (loc * callback)) as invoked.
  induction (entities th) as [|[key l] rest IH]; intros invoked h e Hlook HI Hinv.
  - cbn. split; [by exists e|exact Hinv].
  - cbn [foldl]. destruct (h !! l) as [el|] eqn:Hl; [|by eapply IH].
    destruct (advance deltaTime el) as [el' cbs] eqn:Hadv.
    destruct (decide (l = entity)) as [->|Hne].
    + rewrite Hlook in Hl. injection Hl as <-.
      destruct (Hstep e HI) as [HI' HC]. rewrite Hadv in HI', HC. cbn in HI', HC.
      eapply IH; [apply lookup_insert_eq|exact HI'|].
      intros cb Hin. apply elem_of_app in Hin as [Hin|Hin]; [by apply Hinv|].
      apply list_elem_of_fmap in Hin as (cb' & Heq & Hin). injection Heq as <-.
      rewrite Forall_forall in HC. by apply HC.
    + eapply IH; [by rewrite lookup_insert_ne|exact HI|].
      intros cb Hin. apply elem_of_app in Hin as [Hin|Hin]; [by apply Hinv|].
      apply list_elem_of_fmap in Hin as (cb' & Heq & Hin). congruence.
Qed.

Lemma frames_entity (I : VisualEntity -> Prop) (C : callback -> Prop)
    (th : t) (entity : loc) (deltas : list num) (h : heap) (e : VisualEntity) :
  (forall deltaTime e0, I e0 ->
     I (advance deltaTime e0).1 /\ Forall C (advance deltaTime e0).2) ->
  h !! entity = Some e -> I e ->
  (exists e', (frames h th deltas).1 !! entity = Some e' /\ I e') /\
  (forall cb, (entity, cb) ∈ (frames h th deltas).2 -> C cb).
Proof.
  intros Hstep. revert h e.
  induction deltas as [|deltaTime rest IH]; intros h e Hlook HI.
  - cbn. split; [by exists e|]. intros cb Hin. by apply elem_of_nil in Hin.
  - cbn [frames].
    destruct (processAnimations_entity I C h th deltaTime entity e
                (Hstep deltaTime) Hlook HI) as [(e1 & Hlook1 & HI1) Hcb1].
    destruct (processAnimations h th deltaTime) as [h1 invoked] eqn:Hp.
    cbn in Hlook1, Hcb1.
    destruct (IH h1 e1 Hlook1 HI1) as [Hent Hcb].
    destruct (frames h1 th rest) as [h2 later]. cbn in *.
    split; [exact Hent|].
    intros cb Hin. apply elem_of_app in Hin as [Hin|Hin]; auto.
Qed.

(** C4. Once an entity's animation is inactive, any number of further
    frames, with any deltas, leaves the entity as it is (position, scale,
    rotation, opacity and every other field) and invokes no completion
    callback for it. *)
Theorem completed_animation_is_inert (h : heap) (th : t) (entity : loc)
    (e : VisualEntity) (a : AnimationState) (deltas : list num) :
  h !! entity = Some e ->
  animation e = Some a -> active a = false ->
  (frames h th deltas).1 !! entity = Some e /\
  (forall cb, (entity, cb) ∉ (frames h th deltas).2).
Proof.
  intros Hlook Ha Hin.
  destruct (frames_entity (fun e0 => e0 = e) (fun _ => False) th entity deltas h e)
    as [(e' & Hlook' & ->) Hcb]; [|exact Hlook|reflexivity|].
  - intros deltaTime e0 ->. rewrite (advance_inactive deltaTime e a Ha Hin).
    split; [reflexivity|constructor].
  - split; [exact Hlook'|]. intros cb Hcbin. exact (Hcb cb Hcbin).
Qed.

(** An active animation with a positive duration completes at the first
    step that brings the elapsed time up to the duration, and not before;
    its callback is invoked at that step. *)
Lemma advance_positive_duration (e : VisualEntity) (a : AnimationState) (d el dt : Q) :
  animation e = Some a -> active a = true ->
  duration a = Fin d -> elapsed a = Fin el -> (0 < d)%Q ->
  let done := Qle_bool d (el + dt) in
  animation (advance (Fin dt) e).1
  = Some (mkAnimationState (negb done) (Fin d) (Fin (Qred (el + dt))) (properties a)
            (onComplete a)) /\
  (advance (Fin dt) e).2
  = if done then match onComplete a with Some cb => [cb] | None => [] end else [].
Proof.
  intros Ha Hact Hd Hel Hdpos. cbv zeta.
  destruct (advance_active (Fin dt) e a Ha Hact) as [Hanim Hcbs].
  rewrite Hanim, Hcbs. clear Hanim Hcbs.
  assert (Hdone : geb (progress_after a (Fin dt)) one = Qle_bool d (el + dt)).
  { unfold progress_after. rewrite Hd, Hel. cbn [add].
    rewrite div_fin_pos by exact Hdpos.
    set (q := Qred (Qred (el + dt) / d)).
    assert (Hq : (q == (el + dt) / d)%Q) by (unfold q; now rewrite !Qred_correct).
    unfold min, geb, one, of_Z. cbn [leb].
    destruct (Qle_bool d (el + dt)) eqn:Hcmp.
    - apply Qle_bool_iff in Hcmp.
      assert (H1 : (1 <= q)%Q).
      { rewrite Hq. apply Qle_shift_div_l; [exact Hdpos|lra]. }
      destruct (Qle_bool q (inject_Z 1)) eqn:Hle; cbn [leb].
      + apply Qle_bool_iff. exact H1.
      + reflexivity.
    - assert (Hlt : (el + dt < d)%Q).
      { apply Qnot_le_lt. intros Hle. apply Qle_bool_iff in Hle. congruence. }
      assert (H1 : (q < 1)%Q).
      { rewrite Hq. apply Qlt_shift_div_r; [exact Hdpos|lra]. }
      assert (Hle : Qle_bool q (inject_Z 1) = true).
      { apply Qle_bool_iff. change (inject_Z 1) with 1%Q. lra. }
      rewrite Hle. cbn [leb]. apply not_true_is_false. rewrite Qle_bool_iff.
      change (inject_Z 1) with 1%Q. lra. }
  rewrite Hdone, Hd, Hel. cbn [add]. split; reflexivity.
Qed.

Lemma steps_inactive (deltas : list num) (e : VisualEntity) (a : AnimationState) :
  animation e = Some a -> active a = false -> steps deltas e = (e, []).
Proof.
  intros Ha Hin. induction deltas as [|deltaTime rest IH]; [reflexivity|].
  cbn [steps]. rewrite (advance_inactive deltaTime e a Ha Hin). by rewrite IH.
Qed.

(** An active animation with a positive duration completes at the first step
    that brings the elapsed time up to the duration: once the deltas add up
    to it the animation is inactive, and over the whole run its completion
    callback has been invoked exactly once. *)
Lemma animation_completes_once (deltas : list Q) (e : VisualEntity)
    (a : AnimationState) (d el : Q) :
  animation e = Some a -> active a = true ->
  duration a = Fin d -> elapsed a = Fin el ->
  (0 < d)%Q -> (el < d)%Q ->
  (d <= el + foldr Qplus 0 deltas)%Q ->
  active <$> animation (steps (Fin <$> deltas) e).1 = Some false /\
  (steps (Fin <$> deltas) e).2
  = match onComplete a with Some cb => [cb] | None => [] end.
Proof.
  revert e a el. induction deltas as [|dt rest IH]; intros e a el Ha Hact Hd Hel Hdpos Hlt Hsum.
  - cbn in Hsum. lra.
  - cbn [fmap list_fmap steps foldr] in *.
    destruct (advance_positive_duration e a d el dt Ha Hact Hd Hel Hdpos)
      as [Hanim Hcbs].
    destruct (advance (Fin dt) e) as [e1 invoked] eqn:Hadv. cbn [fst snd] in Hanim, Hcbs.
    destruct (Qle_bool d (el + dt)) eqn:Hdone; cbn [negb] in Hanim.
    + rewrite (steps_inactive _ e1 _ Hanim eq_refl). cbn [fst snd].
      rewrite Hanim, app_nil_r. by split.
    + assert (Hnot : (el + dt < d)%Q).
      { apply Qnot_le_lt. intros Hle. apply Qle_bool_iff in Hle. congruence. }
      destruct (IH e1 _ (Qred (el + dt)) Hanim eq_refl eq_refl eq_refl Hdpos)
        as [Hfinal Hlater].
      * by rewrite Qred_correct.
      * rewrite Qred_correct. lra.
      * destruct (steps (Fin <$> rest) e1) as [e2 later]. cbn [fst snd] in *.
        subst invoked. by split.
Qed.

Lemma map_get_set_eq {V : Type} (key : string) (v : V) (m : list (string * V)) :
  map_get key (map_set key v m) = Some v.
Proof.
  induction m as [|[k w] m IH]; cbn.
  - by rewrite decide_True.
  - destruct (decide (key = k)) as [->|Hne]; cbn.
    + by rewrite decide_True.
    + by rewrite decide_False.
Qed.

Lemma map_get_set_ne {V : Type} (key other : string) (v : V) (m : list (string * V)) :
  other <> key -> map_get other (map_set key v m) = map_get other m.
Proof.
  intros Hne. induction m as [|[k w] m IH]; cbn.
  - by rewrite decide_False.
  - destruct (decide (key = k)) as [->|Hk]; cbn.
    + by rewrite !decide_False.
    + destruct (decide (other = k)); [reflexivity|exact IH].
Qed.

(** C8, as the engine restarts an animation.  Starting an animation on an
    entity that already has one reuses the record: it is active again with
    zero elapsed time, the new duration and the new completion callback in
    place of the old one; the triple under the given property name is
    replaced, and the triples tracked under other names are kept and go on
    being interpolated.  The entity's presentation fields are not touched
    by the start itself, and no later frame invokes for this entity
    anything but the new callback. *)
Theorem createAnimation_restarts_in_place (h : heap) (th : t) (entity : loc)
    (e : VisualEntity) (old : AnimationState) (property : string)
    (startValue endValue : value) (d : option num) (cb : option callback) :
  h !! entity = Some e -> animation e = Some old ->
  let after := createAnimation h th entity property startValue endValue d cb in
  exists fresh,
    after.1 !! entity = Some (set_animation (Some fresh) e) /\
    active fresh = true /\
    duration fresh = default (of_Z 500) d /\
    elapsed fresh = zero /\
    onComplete fresh = cb /\
    map_get property (properties fresh)
    = Some (mkAnimationProperty (spread startValue) (spread endValue)
              (spread startValue)) /\
    (forall other, other <> property ->
       map_get other (properties fresh) = map_get other (properties old)) /\
    (forall deltas c, (entity, c) ∈ (frames after.1 after.2 deltas).2 -> cb = Some c).
Proof.
  intros Hlook Hold. cbv zeta. unfold createAnimation. rewrite Hlook, Hold. cbn [fst snd].
  eexists. split; [apply lookup_insert_eq|].
  cbn [active duration elapsed onComplete properties].
  repeat split.
  - apply map_get_set_eq.
  - intros other Hne. by apply map_get_set_ne.
  - intros deltas c Hin.
    eapply (frames_entity
              (fun e0 => forall a0, animation e0 = Some a0 -> onComplete a0 = cb)
              (fun c0 => cb = Some c0)); [| |  |exact Hin].
    + intros deltaTime e0 HI.
      destruct (animation e0) as [a0|] eqn:Ha0.
      * destruct (active a0) eqn:Hact.
        -- destruct (advance_active deltaTime e0 a0 Ha0 Hact) as [Hanim Hcbs].
           rewrite Hcbs. split.
           ++ intros a1 Ha1. rewrite Hanim in Ha1. injection Ha1 as <-.
              cbn. by apply HI.
           ++ destruct (geb (progress_after a0 deltaTime) one); [|constructor].
              destruct (onComplete a0) as [c0|] eqn:Hc0; [|constructor].
              constructor; [|constructor]. rewrite <- Hc0. symmetry. by apply HI.
        -- rewrite (advance_inactive deltaTime e0 a0 Ha0 Hact). cbn.
           split; [|constructor]. intros a1 Ha1. apply HI. congruence.
      * rewrite (advance_no_animation deltaTime e0 Ha0). cbn.
        split; [|constructor]. intros a1 Ha1. congruence.
    + apply lookup_insert_eq.
    + intros a0 Ha0. cbn in Ha0. injection Ha0 as <-. reflexivity.
Qed.

End AnimationFacts.



Lemma completed_animation_is_inert_witness :
  (BaseTheme.frames
     (Scenario.stage (set_animation
        (Some (mkAnimationState false (of_Z 500) (of_Z 516)
                 [("position", Scenario.slide)] (Some 7%nat))) Scenario.still))
     Scenario.theme [of_Z 16; of_Z 17; of_Z 16]).1 !! 1%nat
  = Some (set_animation
        (Some (mkAnimationState false (of_Z 500) (of_Z 516)
                 [("position", Scenario.slide)] (Some 7%nat))) Scenario.still).
Proof.
  eapply completed_animation_is_inert; reflexivity.
Defined.

Lemma createAnimation_restarts_in_place_witness :
  exists fresh,
    (Scenario.pulse (Scenario.stage (Scenario.walker (of_Z 1000)))).1 !! 1%nat
    = Some (set_animation (Some fresh) (Scenario.walker (of_Z 1000))) /\
    onComplete fresh = None.
Proof.
  destruct (createAnimation_restarts_in_place
              (Scenario.stage (Scenario.walker (of_Z 1000))) Scenario.theme 1%nat
              (Scenario.walker (of_Z 1000))
              (mkAnimationState true (of_Z 1000) zero [("position", Scenario.slide)]
                 (Some 7%nat))
              "scale" VObj VObj (Some (of_Z 200)) None eq_refl eq_refl)
    as (fresh & Hheap & _ & _ & _ & Hcb & _).
  exists fresh. split; [exact Hheap|exact Hcb].
Defined.

(** C8, as stated, fails: after a [scale] animation is started on an entity
    that was sliding, the next frame still moves the entity along the old
    slide, to [(50, 0)]; had the old animation been discarded it would have
    stayed at the origin. *)
Lemma previous_property_still_animates :
  position <$>
    (BaseTheme.processAnimations
       (Scenario.pulse (Scenario.stage (Scenario.walker (of_Z 1000)))).1
       Scenario.theme (of_Z 100)).1 !! 1%nat
  <> position <$>
       (BaseTheme.processAnimations
          (Scenario.pulse (Scenario.stage Scenario.still)).1
          Scenario.theme (of_Z 100)).1 !! 1%nat.
Proof.
  vm_compute. intros Heq. discriminate Heq.
Qed.

(** *** The spatial grid *)
Section GridFacts.
Import IsometricGrid.

Lemma array_get_set_eq {A : Type} (arr : list (option A)) (i : nat) (v : A) :
  array_get (array_set arr i v) i = Some v.
Proof.
  unfold array_get, array_set. case_decide as Hlt.
  - by rewrite list_lookup_insert_eq.
  - rewrite lookup_app_r by lia. rewrite lookup_app_r by (rewrite length_replicate; lia).
    rewrite length_replicate. by replace (i - length arr - (i - length arr)) with 0 by lia.
Qed.

Lemma array_get_set_ne {A : Type} (arr : list (option A)) (i j : nat) (v : A) :
  i <> j -> array_get (array_set arr i v) j = array_get arr j.
Proof.
  intros Hne. unfold array_get, array_set. case_decide as Hlt.
  - by rewrite list_lookup_insert_ne.
  - destruct (decide (j < length arr)) as [Hj|Hj].
    + by rewrite lookup_app_l.
    + rewrite (lookup_ge_None_2 arr j) by lia. rewrite lookup_app_r by lia.
      destruct (decide (j - length arr < i - length arr)) as [Hk|Hk].
      * rewrite lookup_app_l by (rewrite length_replicate; lia).
        by rewrite lookup_replicate_2.
      * rewrite lookup_app_r by (rewrite length_replicate; lia).
        rewrite length_replicate.
        destruct (j - length arr - (i - length arr)) as [|n] eqn:Hn; [lia|reflexivity].
Qed.

Lemma isInBounds_spec (g : t) (x y z : Z) :
  isInBounds g x y z = true <->
  (0 <= x < width (config g) /\ 0 <= y < height (config g) /\ 0 <= z)%Z.
Proof. unfold isInBounds. rewrite !andb_true_iff. lia. Qed.

Lemma set_cell_config (g : t) (x y z : Z) (c : GridCell) :
  config (set_cell g x y z c) = config g.
Proof. reflexivity. Qed.

Lemma set_cell_well_formed (g : t) (x y z : Z) (c : GridCell) :
  well_formed g -> well_formed (set_cell g x y z c).
Proof.
  intros [Hw Hh]. split; cbn.
  - by rewrite length_alter.
  - apply Forall_forall. intros row Hrow.
    apply list_elem_of_lookup in Hrow as [i Hi].
    destruct (decide (i = Z.to_nat x)) as [->|Hne].
    + rewrite list_lookup_alter_eq in Hi.
      destruct (grid g !! Z.to_nat x) as [row0|] eqn:Hrow0; [|discriminate].
      injection Hi as <-. rewrite length_alter.
      rewrite Forall_forall in Hh. apply Hh. by eapply list_elem_of_lookup_2.
    + rewrite list_lookup_alter_ne in Hi by done.
      rewrite Forall_forall in Hh. apply Hh. by eapply list_elem_of_lookup_2.
Qed.

(** Inside the bounds of a well-formed grid the column exists. *)
Lemma column_in_bounds (g : t) (x y z : Z) :
  well_formed g -> isInBounds g x y z = true ->
  exists row col,
    grid g !! Z.to_nat x = Some row /\ row !! Z.to_nat y = Some col /\
    column g x y = Returned col.
Proof.
  intros [Hw Hh] Hin. apply isInBounds_spec in Hin as (Hx & Hy & Hz).
  destruct (lookup_lt_is_Some_2 (grid g) (Z.to_nat x)) as [row Hrow]; [lia|].
  assert (Hlen : length row = Z.to_nat (height (config g))).
  { rewrite Forall_forall in Hh. apply Hh. by eapply list_elem_of_lookup_2. }
  destruct (lookup_lt_is_Some_2 row (Z.to_nat y)) as [col Hcol]; [lia|].
  exists row, col. unfold column. by rewrite Hrow, Hcol.
Qed.

Lemma cell_at_set_cell_eq (g : t) (x y z : Z) (c : GridCell) (row : list (list (option GridCell)))
    (col : list (option GridCell)) :
  grid g !! Z.to_nat x = Some row -> row !! Z.to_nat y = Some col ->
  cell_at (set_cell g x y z c) (Z.to_nat x) (Z.to_nat y) (Z.to_nat z) = Some c.
Proof.
  intros Hrow Hcol. unfold cell_at, set_cell. cbn.
  rewrite list_lookup_alter_eq, Hrow. cbn.
  rewrite list_lookup_alter_eq, Hcol. cbn.
  apply array_get_set_eq.
Qed.

Lemma cell_at_set_cell_ne (g : t) (x y z : Z) (c : GridCell) (i j k : nat) :
  (i, j, k) <> (Z.to_nat x, Z.to_nat y, Z.to_nat z) ->
  cell_at (set_cell g x y z c) i j k = cell_at g i j k.
Proof.
  intros Hne. unfold cell_at, set_cell. cbn.
  destruct (decide (i = Z.to_nat x)) as [->|Hi];
    [|by rewrite list_lookup_alter_ne].
  rewrite list_lookup_alter_eq.
  destruct (grid g !! Z.to_nat x) as [row|]; [|reflexivity]. cbn.
  destruct (decide (j = Z.to_nat y)) as [->|Hj];
    [|by rewrite list_lookup_alter_ne].
  rewrite list_lookup_alter_eq.
  destruct (row !! Z.to_nat y) as [col|]; [|reflexivity]. cbn.
  apply array_get_set_ne. congruence.
Qed.

(** [getCell] inside the bounds of a well-formed grid: it returns a cell,
    which is then the cell stored at those coordinates, and it changes no
    other cell. *)
Lemma getCell_in_bounds (g : t) (x y z : Z) :
  well_formed g -> isInBounds g x y z = true ->
  exists g' c row col,
    getCell g x y z = Returned (g', Some c) /\
    well_formed g' /\ config g' = config g /\
    grid g' !! Z.to_nat x = Some row /\ row !! Z.to_nat y = Some col /\
    cell_at g' (Z.to_nat x) (Z.to_nat y) (Z.to_nat z) = Some c /\
    (forall i j k, (i, j, k) <> (Z.to_nat x, Z.to_nat y, Z.to_nat z) ->
       cell_at g' i j k = cell_at g i j k) /\
    (cell_at g (Z.to_nat x) (Z.to_nat y) (Z.to_nat z) = Some c \/
     cell_at g (Z.to_nat x) (Z.to_nat y) (Z.to_nat z) = None /\ entities c = []).
Proof.
  intros Hwf Hin.
  destruct (column_in_bounds g x y z Hwf Hin) as (row & col & Hrow & Hcol & Hcolumn).
  unfold getCell. rewrite Hin, Hcolumn. cbn.
  destruct (array_get col (Z.to_nat z)) as [c|] eqn:Hget.
  - assert (Hc : cell_at g (Z.to_nat x) (Z.to_nat y) (Z.to_nat z) = Some c).
    { unfold cell_at. rewrite Hrow. cbn. rewrite Hcol. exact Hget. }
    exists g, c, row, col.
    split; [reflexivity|]. split; [exact Hwf|]. split; [reflexivity|].
    split; [exact Hrow|]. split; [exact Hcol|]. split; [exact Hc|].
    split; [reflexivity|]. by left.
  - eexists _, _, _, _. split; [reflexivity|].
    split; [by apply set_cell_well_formed|]. split; [reflexivity|].
    split; [cbn; by rewrite list_lookup_alter_eq, Hrow|].
    split; [cbn; by rewrite list_lookup_alter_eq, Hcol|].
    split; [by eapply cell_at_set_cell_eq|].
    split; [intros i j k Hne; by apply cell_at_set_cell_ne|].
    right. split; [|reflexivity].
    unfold cell_at. rewrite Hrow. cbn. rewrite Hcol. exact Hget.
Qed.

Lemma getCell_out_of_bounds (g : t) (x y z : Z) :
  isInBounds g x y z = false -> getCell g x y z = Returned (g, None).
Proof. intros Hout. unfold getCell. by rewrite Hout. Qed.

(** [getCell] on a cell that is stored already. *)
Lemma getCell_stored (g : t) (x y z : Z) (c : GridCell) :
  well_formed g -> isInBounds g x y z = true ->
  cell_at g (Z.to_nat x) (Z.to_nat y) (Z.to_nat z) = Some c ->
  getCell g x y z = Returned (g, Some c).
Proof.
  intros Hwf Hin Hc.
  destruct (column_in_bounds g x y z Hwf Hin) as (row & col & Hrow & Hcol & Hcolumn).
  unfold getCell. rewrite Hin, Hcolumn. cbn.
  unfold cell_at in Hc. rewrite Hrow in Hc. cbn in Hc. rewrite Hcol in Hc.
  cbn in Hc. by rewrite Hc.
Qed.

Lemma getCell_well_formed (g g' : t) (x y z : Z) (c : option GridCell) :
  well_formed g -> getCell g x y z = Returned (g', c) ->
  well_formed g' /\ config g' = config g.
Proof.
  intros Hwf. unfold getCell.
  destruct (isInBounds g x y z); cbn; [|by intros [= <- <-]].
  destruct (column g x y) as [col|]; cbn; [|discriminate].
  destruct (array_get col (Z.to_nat z)); intros [= <- <-]; [done|].
  split; [by apply set_cell_well_formed|reflexivity].
Qed.

Lemma remove_in_column_length (h : heap) (entityId : string)
    (col col' : list (option GridCell)) :
  remove_in_column h entityId col = Some col' -> length col' = length col.
Proof.
  revert col'. induction col as [|[c|] col IH]; intros col'; cbn; [discriminate| |].
  - destruct (findIndex (has_id h entityId) (entities c)); [by intros [= <-]|].
    destruct (remove_in_column h entityId col) as [r|]; [|discriminate].
    intros [= <-]. cbn. by rewrite (IH r).
  - destruct (remove_in_column h entityId col) as [r|]; [|discriminate].
    intros [= <-]. cbn. by rewrite (IH r).
Qed.

Lemma remove_in_row_length (h : heap) (entityId : string)
    (row row' : list (list (option GridCell))) :
  remove_in_row h entityId row = Some row' -> length row' = length row.
Proof.
  revert row'. induction row as [|col row IH]; intros row'; cbn; [discriminate|].
  destruct (remove_in_column h entityId col); [by intros [= <-]|].
  destruct (remove_in_row h entityId row) as [r|]; [|discriminate].
  intros [= <-]. cbn. by rewrite (IH r).
Qed.

Lemma remove_in_grid_shape (h : heap) (entityId : string) (n : nat)
    (rows rows' : list (list (list (option GridCell)))) :
  remove_in_grid h entityId rows = Some rows' ->
  Forall (fun row => length row = n) rows ->
  length rows' = length rows /\ Forall (fun row => length row = n) rows'.
Proof.
  revert rows'. induction rows as [|row rows IH]; intros rows'; cbn; [discriminate|].
  intros Hremove Hshape. apply Forall_cons in Hshape as [Hrow Hrows].
  destruct (remove_in_row h entityId row) as [row'|] eqn:Hr.
  - injection Hremove as <-. split; [reflexivity|].
    constructor; [|exact Hrows]. by rewrite (remove_in_row_length _ _ _ _ Hr).
  - destruct (remove_in_grid h entityId rows) as [r|]; [|discriminate].
    injection Hremove as <-. destruct (IH r eq_refl Hrows) as [Hlen Hall].
    split; [cbn; by rewrite Hlen|by constructor].
Qed.

(** Every method keeps the shape, and the constructor establishes it (see
    [new_returns]). *)
Lemma well_formed_invariant (g : t) :
  well_formed g ->
  (forall x y z ty g', setCellType g x y z ty = Returned g' -> well_formed g') /\
  (forall x y z w g', setWalkable g x y z w = Returned g' -> well_formed g') /\
  (forall x y z g' b, isWalkable g x y z = Returned (g', b) -> well_formed g') /\
  (forall (h h' : heap) e x y z g' b,
     placeEntity h g e x y z = Returned (h', g', b) -> well_formed g') /\
  (forall (h : heap) entityId, well_formed (removeEntity h g entityId).1).
Proof.
  intros Hwf. split; [|split; [|split; [|split]]].
  - intros x y z ty g'. unfold setCellType.
    destruct (getCell g x y z) as [[g1 c]|] eqn:Hget; cbn; [|discriminate].
    destruct (getCell_well_formed g g1 x y z c Hwf Hget) as [Hwf1 _].
    destruct c; intros [= <-]; [by apply set_cell_well_formed|done].
  - intros x y z w g'. unfold setWalkable.
    destruct (getCell g x y z) as [[g1 c]|] eqn:Hget; cbn; [|discriminate].
    destruct (getCell_well_formed g g1 x y z c Hwf Hget) as [Hwf1 _].
    destruct c; intros [= <-]; [by apply set_cell_well_formed|done].
  - intros x y z g' b. unfold isWalkable.
    destruct (getCell g x y z) as [[g1 c]|] eqn:Hget; cbn; [|discriminate].
    destruct (getCell_well_formed g g1 x y z c Hwf Hget) as [Hwf1 _].
    by destruct c; intros [= <- <-].
  - intros h h' e x y z g' b. unfold placeEntity.
    destruct (getCell g x y z) as [[g1 c]|] eqn:Hget; cbn; [|discriminate].
    destruct (getCell_well_formed g g1 x y z c Hwf Hget) as [Hwf1 _].
    destruct c; intros [= <- <- <-]; [by apply set_cell_well_formed|done].
  - intros h entityId. destruct Hwf as [Hw Hh]. unfold removeEntity.
    destruct (remove_in_grid h entityId (grid g)) as [cells|] eqn:Hr; [|done].
    destruct (remove_in_grid_shape _ _ _ _ _ Hr Hh) as [Hlen Hall].
    split; cbn; [congruence|exact Hall].
Qed.

Lemma new_returns (cfg : GridConfig) :
  exists g, new cfg = Returned g /\ well_formed g /\
            width (config g) = width cfg /\ height (config g) = height cfg /\
            grid g = initializeGrid (config g).
Proof.
  eexists. split; [reflexivity|]. split; [|by repeat split].
  split; cbn.
  - unfold initializeGrid. by rewrite length_fmap, length_seqZ.
  - unfold initializeGrid. apply Forall_fmap, Forall_forall. intros x _. cbn.
    by rewrite length_fmap, length_seqZ.
Qed.

Lemma collect_no_columns (g : t) :
  Forall (fun row => row = []) (grid g) -> collect g = [].
Proof.
  unfold collect. induction 1 as [|row rows -> _ IH]; [reflexivity|].
  cbn. exact IH.
Qed.

(** C9, as the constructor behaves.  [new IsometricGrid] validates nothing
    and never throws.  With a non-positive [width] or [height] it returns a
    grid without cells: every coordinate is out of bounds, [getCell] answers
    [null], no cell is walkable, [placeEntity] answers [false] and leaves
    grid and entity as they were, and [getAllEntities] has nothing to
    return. *)
Theorem new_accepts_degenerate_bounds (cfg : GridConfig) :
  (width cfg <= 0 \/ height cfg <= 0)%Z ->
  exists g,
    new cfg = Returned g /\ well_formed g /\ collect g = [] /\
    forall x y z,
      isInBounds g x y z = false /\
      getCell g x y z = Returned (g, None) /\
      isWalkable g x y z = Returned (g, false) /\
      forall (h : heap) (e : loc), placeEntity h g e x y z = Returned (h, g, false).
Proof.
  intros Hdeg.
  destruct (new_returns cfg) as (g & Hnew & Hwf & Hw & Hh & Hgrid).
  exists g. split; [exact Hnew|]. split; [exact Hwf|]. split.
  - apply collect_no_columns. rewrite Hgrid. unfold initializeGrid.
    apply Forall_fmap, Forall_forall. intros x Hx. cbn.
    destruct Hdeg as [Hdeg|Hdeg].
    + rewrite Hw in Hx. rewrite seqZ_nil in Hx by lia. by apply elem_of_nil in Hx.
    + rewrite Hh. by rewrite seqZ_nil by lia.
  - intros x y z.
    assert (Hout : isInBounds g x y z = false).
    { apply not_true_is_false. rewrite isInBounds_spec, Hw, Hh. lia. }
    split; [exact Hout|].
    split; [by apply getCell_out_of_bounds|].
    split.
    + unfold isWalkable. by rewrite (getCell_out_of_bounds g x y z Hout).
    + intros h e. unfold placeEntity. by rewrite (getCell_out_of_bounds g x y z Hout).
Qed.

(** C7. In a well-formed grid and for a cell inside the bounds, whatever the
    cell's walkability was: after [setCellType] with [wall] or [object] the
    cell is not walkable, and after [setCellType] with [floor] or [empty]
    it is walkable exactly if it was before. *)
Theorem setCellType_walkability (g : t) (x y z : Z) (ty : CellType) :
  well_formed g -> isInBounds g x y z = true ->
  exists g' g'' after,
    setCellType g x y z ty = Returned g' /\
    isWalkable g' x y z = Returned (g'', after) /\
    match ty with
    | wall | object => after = false
    | floor | empty => exists g0, isWalkable g x y z = Returned (g0, after)
    end.
Proof.
  intros Hwf Hin.
  destruct (getCell_in_bounds g x y z Hwf Hin)
    as (g1 & c & row & col & Hget & Hwf1 & Hcfg & Hrow & Hcol & Hc & _ & _).
  set (typed := mkGridCell (cell_x c) (cell_y c) (cell_z c) (walkable c) (entities c) ty).
  set (c' := match ty with
             | wall | object =>
                 mkGridCell (cell_x typed) (cell_y typed) (cell_z typed) false
                   (entities typed) (type typed)
             | _ => typed
             end).
  assert (Hset : setCellType g x y z ty = Returned (set_cell g1 x y z c')).
  { unfold setCellType. rewrite Hget. reflexivity. }
  assert (Hin' : isInBounds (set_cell g1 x y z c') x y z = true).
  { rewrite isInBounds_spec, set_cell_config, Hcfg. by apply isInBounds_spec. }
  assert (Hwalk : isWalkable (set_cell g1 x y z c') x y z
                  = Returned (set_cell g1 x y z c', walkable c')).
  { unfold isWalkable.
    rewrite (getCell_stored _ x y z c'); [reflexivity| |exact Hin'|].
    - by apply set_cell_well_formed.
    - by eapply cell_at_set_cell_eq. }
  exists (set_cell g1 x y z c'), (set_cell g1 x y z c'), (walkable c').
  split; [exact Hset|]. split; [exact Hwalk|].
  assert (Hbefore : isWalkable g x y z = Returned (g1, walkable c)).
  { unfold isWalkable. rewrite Hget. reflexivity. }
  destruct ty; subst c' typed; cbn; first [reflexivity | by exists g1].
Qed.

(** **** Sorting *)





(** **** Depth keys *)





(** **** Placement *)

Lemma cell_at_Some (g : t) (i j k : nat) (c : GridCell) :
  cell_at g i j k = Some c <->
  exists row col,
    grid g !! i = Some row /\ row !! j = Some col /\ col !! k = Some (Some c).
Proof.
  unfold cell_at, array_get. split.
  - intros H. destruct (grid g !! i) as [row|] eqn:Hi; [|discriminate]. cbn in H.
    destruct (row !! j) as [col|] eqn:Hj; [|discriminate]. cbn in H.
    destruct (col !! k) as [[c'|]|] eqn:Hk; try discriminate. cbn in H.
    injection H as ->. by exists row, col.
  - intros (row & col & -> & Hcol & Hc). cbn. rewrite Hcol. cbn. by rewrite Hc.
Qed.

(** The collected references are those of the stored cells. *)
Lemma elem_of_collect (g : t) (l : loc) :
  l ∈ collect g <-> exists i j k c, cell_at g i j k = Some c /\ l ∈ entities c.
Proof.
  unfold collect. split.
  - intros H.
    apply list_elem_of_bind in H as (row & H & Hrow).
    apply list_elem_of_bind in H as (col & H & Hcol).
    apply list_elem_of_bind in H as (cell & H & Hcell).
    destruct cell as [c|]; [|by apply elem_of_nil in H].
    apply list_elem_of_lookup in Hrow as [i Hi].
    apply list_elem_of_lookup in Hcol as [j Hj].
    apply list_elem_of_lookup in Hcell as [k Hk].
    exists i, j, k, c. split; [|exact H]. apply cell_at_Some. by exists row, col.
  - intros (i & j & k & c & Hc & H).
    apply cell_at_Some in Hc as (row & col & Hi & Hj & Hk).
    apply list_elem_of_bind. exists row. split; [|by eapply list_elem_of_lookup_2].
    apply list_elem_of_bind. exists col. split; [|by eapply list_elem_of_lookup_2].
    apply list_elem_of_bind. exists (Some c). split; [exact H|].
    by eapply list_elem_of_lookup_2.
Qed.



(** A grid fresh from the constructor holds no entity, so the premises of
    the ordering below hold from the start; [placeEntity_ranked] and
    [well_formed_invariant] carry them through later placements. *)
Lemma new_ranked (cfg : GridConfig) (h : heap) (g : t) :
  new cfg = Returned g -> collect g = [] /\ ranked h g.
Proof.
  intros [= <-].
  assert (Hempty : collect (mkGrid (initializeGrid
            (mkGridConfig (width cfg) (height cfg) (tileWidth cfg) (tileHeight cfg)
               (Some (or_else (originX cfg) zero)) (Some (or_else (originY cfg) zero))))
            (mkGridConfig (width cfg) (height cfg) (tileWidth cfg) (tileHeight cfg)
               (Some (or_else (originX cfg) zero)) (Some (or_else (originY cfg) zero))))
          = []).
  { apply elem_of_nil_inv. intros l Hl.
    apply elem_of_collect in Hl as (i & j & k & c & Hc & Hl).
    apply cell_at_Some in Hc as (row & col & Hi & Hj & Hk).
    cbn in Hi. unfold initializeGrid in Hi.
    apply list_lookup_fmap_Some in Hi as (x & -> & _).
    apply list_lookup_fmap_Some in Hj as (y & -> & _).
    destruct k as [|k]; [|by destruct k].
    cbn in Hk. injection Hk as <-. cbn in Hl. by apply elem_of_nil in Hl. }
  split; [exact Hempty|]. intros l Hl. rewrite Hempty in Hl.
  by apply elem_of_nil in Hl.
Qed.


End GridFacts.

(** C9, as stated, fails: a grid of width and height [0] is constructed
    without any error. *)
Lemma new_does_not_reject_empty_bounds :
  ~ (exists error, IsometricGrid.new Scenario.nowhere = Thrown error).
Proof.
  intros [error Hthrown]. discriminate Hthrown.
Qed.

Lemma new_accepts_degenerate_bounds_witness :
  exists g,
    IsometricGrid.new Scenario.nowhere = Returned g /\
    IsometricGrid.isInBounds g 0 0 0 = false.
Proof.
  destruct (new_accepts_degenerate_bounds Scenario.nowhere) as (g & Hnew & _ & _ & Hall).
  - left. cbn. lia.
  - exists g. split; [exact Hnew|]. by destruct (Hall 0%Z 0%Z 0%Z) as [Hout _].
Defined.

Lemma setCellType_walkability_witness :
  exists g' g'',
    IsometricGrid.setCellType
      (IsometricGrid.mkGrid
         (IsometricGrid.initializeGrid Scenario.office) Scenario.office)
      1 2 0 IsometricGrid.wall = Returned g' /\
    IsometricGrid.isWalkable g' 1 2 0 = Returned (g'', false).
Proof.
  destruct (setCellType_walkability
              (IsometricGrid.mkGrid
                 (IsometricGrid.initializeGrid Scenario.office) Scenario.office)
              1 2 0 IsometricGrid.wall)
    as (g' & g'' & after & Hset & Hwalk & ->).
  - split; [reflexivity|]. cbn. repeat constructor.
  - reflexivity.
  - by exists g', g''.
Defined.




(** *** The adapter, message by message *)
Section AdapterHandlers.
Import MCPAdapter.

Variable now : nat -> Z.
Variable random : nat -> string.

Ltac run_handler :=
  cbv [exec handleAgentRegistered handleAgentLeft handleAgentWait
       handleAgentMoved handleMessageAdded handleMessagesCleared handleTaskAdded
       handleTaskAssigned handleTaskCompleted handleTaskMoved handleSystemReset
       change_agent_state thrown find_task find_agent
       mbind M_bind mret M_ret modify get emit Date_now Math_random option_bind
       set_agents set_messages set_tasks set_canonical
       canonical agents messages tasks eventHandlers ticks draws trace
       data_type data_agent data_message data_task data_agentId data_taskId
       data_position task_assignedTo fst snd].

Ltac dispatch H :=
  unfold emissions, exec, handleMessage; rewrite H;
  repeat (case_decide; [discriminate|]); (case_decide; [|done]).

Ltac branch :=
  repeat (run_handler;
          match goal with
          | |- context [match ?x with _ => _ end] =>
              lazymatch x with
              | context [match _ with _ => _ end] => fail
              | _ => destruct x eqn:?
              end
          end);
  run_handler.

(** Membership of a literal in a literal list, and its refutation. *)
Ltac in_list :=
  solve [repeat first [apply list_elem_of_here | apply list_elem_of_further]].
Ltac not_in_list H :=
  repeat (apply elem_of_cons in H as [H|H]; [discriminate H|]); by apply elem_of_nil in H.

Ltac emitted_list :=
  rewrite <- ?app_assoc; rewrite ?drop_trace, ?drop_all; cbn [fmap list_fmap app emitted].

(** X1. An [agent:registered] message that carries an agent always stores a
    fresh record under the agent's identity: [idle], without position, with
    the name defaulting to ["Agent <id>"] and the colour to ["#007bff"] when
    missing or empty.  A record already there is overwritten, its state and
    position are lost, and exactly one [agent:registered] event is emitted
    either way. *)
Theorem agent_registered_last_write_wins (s : t) (data : Data) (a : AgentData) :
  data_type data = "agent:registered" -> data_agent data = Some a ->
  let s' := exec (handleMessage now random (Some data)) s in
  exists createdAt lastActive timestamp,
    let agent :=
      mkAgent (data_agent_id a)
        (string_or (data_agent_name a) ("Agent " +:+ data_agent_id a))
        (string_or (data_agent_color a) "#007bff") IDLE None createdAt lastActive in
    canonical s'
    = mkCanonical (<[data_agent_id a := agent]> (agents (canonical s)))
        (messages (canonical s)) (tasks (canonical s)) /\
    emitted <$> emissions now random (Some data) s
    = [AgentRegisteredEvent agent timestamp].
Proof.
  intros Hty Ha. destruct s as [[ags msgs tks] hs tk dr tr].
  destruct data as [ty da dm dt daid dtid dpos]. cbn in Hty, Ha. subst ty da.
  cbv zeta. unfold emissions, exec, handleMessage. cbv [data_type].
  repeat (case_decide; [discriminate|]). case_decide; [|done].
  run_handler. emitted_list. do 3 eexists. split; reflexivity.
Qed.

(** X2. An [agent:left] message removes the agent and emits one
    [agent:left] event if the agent is known, and does nothing at all
    otherwise.  Tasks and messages are never touched: a task assigned to the
    agent that left keeps naming it. *)
Theorem agent_left_removes_if_known (s : t) (data : Data) (a : AgentData) :
  data_type data = "agent:left" -> data_agent data = Some a ->
  let s' := exec (handleMessage now random (Some data)) s in
  let out := emitted <$> emissions now random (Some data) s in
  tasks (canonical s') = tasks (canonical s) /\
  messages (canonical s') = messages (canonical s) /\
  match agents (canonical s) !! data_agent_id a with
  | Some _ =>
      agents (canonical s') = delete (data_agent_id a) (agents (canonical s)) /\
      exists timestamp, out = [AgentLeftEvent (data_agent_id a) timestamp]
  | None => agents (canonical s') = agents (canonical s) /\ out = []
  end.
Proof.
  intros Hty Ha. destruct s as [[ags msgs tks] hs tk dr tr].
  destruct data as [ty da dm dt daid dtid dpos]. cbn in Hty, Ha. subst ty da.
  cbv zeta. unfold emissions, exec, handleMessage. cbv [data_type].
  repeat (case_decide; [discriminate|]). case_decide; [|done].
  run_handler. destruct (ags !! data_agent_id a) as [agent|] eqn:Hagent.
  - rewrite decide_True by done. run_handler. emitted_list.
    repeat split. by eexists.
  - rewrite decide_False by (intros [? ?]; done). run_handler. emitted_list.
    by repeat split.
Qed.

(** X3. An [agent:wait] message for a known agent sets its state to
    [waiting] and refreshes [lastActive], keeping every other field, and
    emits [agent:state_changed] (with the previous state, even if that was
    [waiting] already) followed by [agent:updated]; for an unknown agent
    nothing changes and nothing is emitted. *)
Theorem agent_wait_sets_waiting (s : t) (data : Data) (a : AgentData) :
  data_type data = "agent:wait" -> data_agent data = Some a ->
  let s' := exec (handleMessage now random (Some data)) s in
  let out := emitted <$> emissions now random (Some data) s in
  match agents (canonical s) !! data_agent_id a with
  | Some agent =>
      exists lastActive t1 t2,
        let waiting :=
          mkAgent (agent_id agent) (agent_name agent) (agent_color agent) WAITING
            (agent_position agent) (agent_createdAt agent) lastActive in
        canonical s'
        = mkCanonical (<[data_agent_id a := waiting]> (agents (canonical s)))
            (messages (canonical s)) (tasks (canonical s)) /\
        out = [AgentStateChangedEvent (data_agent_id a) (agent_state agent) WAITING t1;
               AgentUpdatedEvent waiting
                 (mkAgentChanges (Some WAITING) None (Some lastActive)) t2]
  | None => canonical s' = canonical s /\ out = []
  end.
Proof.
  intros Hty Ha. destruct s as [[ags msgs tks] hs tk dr tr].
  destruct data as [ty da dm dt daid dtid dpos]. cbn in Hty, Ha. subst ty da.
  cbv zeta. unfold emissions, exec, handleMessage. cbv [data_type].
  repeat (case_decide; [discriminate|]). case_decide; [|done].
  run_handler. destruct (ags !! data_agent_id a) as [agent|] eqn:Hagent.
  - run_handler. emitted_list. do 3 eexists. split; reflexivity.
  - run_handler. emitted_list. by split.
Qed.

(** X4. A [message:added] message appends exactly one message, carrying the
    sender and content received, to the end of the history, whether or not
    the sender is a known agent.  A known sender becomes [active], with
    [agent:state_changed] and [agent:updated] emitted before the final
    [message:added]; for an unknown sender [message:added] is the only
    event. *)
Theorem message_added_appends (s : t) (data : Data) (m : MessageData) :
  data_type data = "message:added" -> data_message data = Some m ->
  let s' := exec (handleMessage now random (Some data)) s in
  let out := emitted <$> emissions now random (Some data) s in
  exists messageId stamp timestamp,
    let message :=
      mkMessage messageId (data_message_senderId m) (data_message_content m) stamp in
    messages (canonical s') = messages (canonical s) ++ [message] /\
    tasks (canonical s') = tasks (canonical s) /\
    match agents (canonical s) !! data_message_senderId m with
    | Some agent =>
        exists lastActive t1 t2,
          let speaking :=
            mkAgent (agent_id agent) (agent_name agent) (agent_color agent) ACTIVE
              (agent_position agent) (agent_createdAt agent) lastActive in
          agents (canonical s')
          = <[data_message_senderId m := speaking]> (agents (canonical s)) /\
          out = [AgentStateChangedEvent (data_message_senderId m) (agent_state agent)
                   ACTIVE t1;
                 AgentUpdatedEvent speaking
                   (mkAgentChanges (Some ACTIVE) None (Some lastActive)) t2;
                 MessageAddedEvent message timestamp]
    | None =>
        agents (canonical s') = agents (canonical s) /\
        out = [MessageAddedEvent message timestamp]
    end.
Proof.
  intros Hty Hm. destruct s as [[ags msgs tks] hs tk dr tr].
  destruct data as [ty da dm dt daid dtid dpos]. cbn in Hty, Hm. subst ty dm.
  cbv zeta. unfold emissions, exec, handleMessage. cbv [data_type].
  repeat (case_decide; [discriminate|]). case_decide; [|done].
  run_handler. cbv [message_senderId].
  destruct (ags !! data_message_senderId m) as [agent|] eqn:Hagent.
  - run_handler. emitted_list. do 3 eexists. repeat split.
    do 3 eexists. split; reflexivity.
  - run_handler. emitted_list. do 3 eexists. repeat split.
Qed.

(** X5. A [task:added] message stores a [pending] task without assignee or
    completion time under the task's identity, overwriting a task already
    there (an assigned or completed task is reset to [pending]), and emits
    exactly one [task:added] event. *)
Theorem task_added_pending (s : t) (data : Data) (d : TaskData) :
  data_type data = "task:added" -> data_task data = Some d ->
  let s' := exec (handleMessage now random (Some data)) s in
  exists createdAt timestamp,
    let task :=
      mkTask (data_task_id d) (data_task_description d) PENDING None createdAt None in
    canonical s'
    = mkCanonical (agents (canonical s)) (messages (canonical s))
        (<[data_task_id d := task]> (tasks (canonical s))) /\
    emitted <$> emissions now random (Some data) s = [TaskAddedEvent task timestamp].
Proof.
  intros Hty Hd. destruct s as [[ags msgs tks] hs tk dr tr].
  destruct data as [ty da dm dt daid dtid dpos]. cbn in Hty, Hd. subst ty dt.
  cbv zeta. unfold emissions, exec, handleMessage. cbv [data_type].
  repeat (case_decide; [discriminate|]). case_decide; [|done].
  run_handler. emitted_list. do 2 eexists. split; reflexivity.
Qed.

(** X6. A [task:assigned] message for an unknown task does nothing.  For a
    known task it marks the task [assigned] to whatever [agentId] the
    message carries (none, or an agent the adapter does not know, included)
    and emits [task:assigned] and [task:updated]; only when the assignee is
    a known agent is that agent set to [working], with [agent:state_changed]
    and [agent:updated] emitted after the two task events.  The previous
    assignee, if any, is left as it was. *)
Theorem task_assigned_records_assignee (s : t) (data : Data) :
  data_type data = "task:assigned" ->
  let s' := exec (handleMessage now random (Some data)) s in
  let out := emitted <$> emissions now random (Some data) s in
  messages (canonical s') = messages (canonical s) /\
  match find_task data s with
  | None => canonical s' = canonical s /\ out = []
  | Some (taskId, task) =>
      let assigned :=
        mkTask (task_id task) (task_description task) ASSIGNED (data_agentId data)
          (task_createdAt task) (task_completedAt task) in
      tasks (canonical s') = <[taskId := assigned]> (tasks (canonical s)) /\
      exists t1 t2,
        let task_events :=
          [TaskAssignedEvent taskId (data_agentId data) t1;
           TaskUpdatedEvent assigned
             (mkTaskChanges (Some ASSIGNED) (data_agentId data) None None) t2] in
        match find_agent (data_agentId data) s with
        | Some (agentId, agent) =>
            exists lastActive t3 t4,
              let working :=
                mkAgent (agent_id agent) (agent_name agent) (agent_color agent) WORKING
                  (agent_position agent) (agent_createdAt agent) lastActive in
              agents (canonical s') = <[agentId := working]> (agents (canonical s)) /\
              out = task_events ++
                    [AgentStateChangedEvent agentId (agent_state agent) WORKING t3;
                     AgentUpdatedEvent working
                       (mkAgentChanges (Some WORKING) None (Some lastActive)) t4]
        | None => agents (canonical s') = agents (canonical s) /\ out = task_events
        end
  end.
Proof.
  intros Hty. destruct s as [[ags msgs tks] hs tk dr tr].
  destruct data as [ty da dm dt daid dtid dpos]. cbn in Hty. subst ty.
  cbv zeta. unfold emissions, exec, handleMessage. cbv [data_type].
  repeat (case_decide; [discriminate|]). case_decide; [|done].
  branch; emitted_list; (split; [reflexivity|]); try (split; reflexivity).
  all: split; [reflexivity|]; do 2 eexists; try (split; reflexivity).
  all: do 3 eexists; split; reflexivity.
Qed.

(** X7. A [task:completed] message for an unknown task does nothing.  For a
    known task, whatever its state, it marks the task [completed] with the
    completion time just read, keeps the assignee on the task, and emits
    [task:completed] and [task:updated]; a known assignee is then set to
    [idle], with [agent:state_changed] and [agent:updated] emitted last. *)
Theorem task_completed_frees_assignee (s : t) (data : Data) :
  data_type data = "task:completed" ->
  let s' := exec (handleMessage now random (Some data)) s in
  let out := emitted <$> emissions now random (Some data) s in
  messages (canonical s') = messages (canonical s) /\
  match find_task data s with
  | None => canonical s' = canonical s /\ out = []
  | Some (taskId, task) =>
      exists completedAt t1 t2,
        let completed :=
          mkTask (task_id task) (task_description task) COMPLETED (task_assignedTo task)
            (task_createdAt task) (Some completedAt) in
        let task_events :=
          [TaskCompletedEvent taskId t1;
           TaskUpdatedEvent completed
             (mkTaskChanges (Some COMPLETED) None (Some completedAt) None) t2] in
        tasks (canonical s') = <[taskId := completed]> (tasks (canonical s)) /\
        match find_agent (truthy (task_assignedTo task)) s with
        | Some (agentId, agent) =>
            exists lastActive t3 t4,
              let idle :=
                mkAgent (agent_id agent) (agent_name agent) (agent_color agent) IDLE
                  (agent_position agent) (agent_createdAt agent) lastActive in
              agents (canonical s') = <[agentId := idle]> (agents (canonical s)) /\
              out = task_events ++
                    [AgentStateChangedEvent agentId (agent_state agent) IDLE t3;
                     AgentUpdatedEvent idle
                       (mkAgentChanges (Some IDLE) None (Some lastActive)) t4]
        | None => agents (canonical s') = agents (canonical s) /\ out = task_events
        end
  end.
Proof.
  intros Hty. destruct s as [[ags msgs tks] hs tk dr tr].
  destruct data as [ty da dm dt daid dtid dpos]. cbn in Hty. subst ty.
  cbv zeta. unfold emissions, exec, handleMessage. cbv [data_type].
  repeat (case_decide; [discriminate|]). case_decide; [|done].
  branch; emitted_list; (split; [reflexivity|]); try (split; reflexivity).
  all: do 3 eexists; split; [reflexivity|]; try (split; reflexivity).
  all: do 3 eexists; split; reflexivity.
Qed.

(** X8. A [system:reset] message empties the three collections, whatever
    they held, keeps every subscription, and emits one [system:reset] event
    whose subscribers already see the empty state. *)
Theorem system_reset_clears (s : t) (data : Data) :
  data_type data = "system:reset" ->
  let s' := exec (handleMessage now random (Some data)) s in
  canonical s' = mkCanonical ∅ [] ∅ /\
  eventHandlers s' = eventHandlers s /\
  exists timestamp,
    emissions now random (Some data) s
    = [mkEmission (SystemResetEvent timestamp)
         (default [] (eventHandlers s !! "system:reset")) (mkCanonical ∅ [] ∅)].
Proof.
  intros Hty. destruct s as [[ags msgs tks] hs tk dr tr].
  cbv zeta. dispatch Hty. run_handler. emitted_list.
  repeat split. by eexists.
Qed.

(** X9. A message whose [type] is none of the [case] labels is not
    dropped: the parsed payload itself is emitted, with its fields and the
    time of handling, under its own [type] and to the subscribers of that
    type; canonical state is not touched. *)
Theorem unknown_type_forwarded (s : t) (data : Data) :
  data_type data ∉ Inbound.known_types ->
  let s' := exec (handleMessage now random (Some data)) s in
  canonical s' = canonical s /\
  exists timestamp,
    emissions now random (Some data) s
    = [mkEmission (CustomEvent data timestamp)
         (default [] (eventHandlers s !! data_type data)) (canonical s)].
Proof.
  intros Hty. destruct s as [[ags msgs tks] hs tk dr tr].
  cbv zeta. unfold emissions, exec, handleMessage.
  repeat (case_decide as Heq;
          [exfalso; apply Hty; rewrite Heq; unfold Inbound.known_types; in_list|];
          clear Heq).
  run_handler. emitted_list. split; [reflexivity|]. by eexists.
Qed.

(** X10. A payload that does not parse, and a message of a type whose
    handler reads [data.agent], [data.message] or [data.task] when that
    field is missing, are dropped: the error is caught, canonical state is
    unchanged and nothing is emitted. *)
Theorem malformed_dropped (s : t) (raw : option Data) :
  (raw = None \/
   exists data,
     raw = Some data /\
     (data_type data ∈ ["agent:registered"; "agent:left"; "agent:wait"] /\
      data_agent data = None \/
      data_type data = "message:added" /\ data_message data = None \/
      data_type data = "task:added" /\ data_task data = None)) ->
  canonical (exec (handleMessage now random raw) s) = canonical s /\
  emissions now random raw s = [].
Proof.
  destruct s as [[ags msgs tks] hs tk dr tr].
  intros [->|(data & -> & Hbad)]; unfold emissions, exec, handleMessage.
  { run_handler. by rewrite drop_all. }
  destruct data as [ty da dm dt daid dtid dpos]. cbn in Hbad.
  destruct Hbad as [[Hty ->]|[[-> ->]|[-> ->]]].
  - cbv [data_type].
    apply elem_of_cons in Hty as [->|Hty]; [|apply elem_of_cons in Hty as [->|Hty]];
      [| |apply list_elem_of_singleton in Hty as ->].
    all: repeat (case_decide; [discriminate|]); (case_decide; [|done]).
    all: run_handler; by rewrite drop_all.
  - cbv [data_type]. repeat (case_decide; [discriminate|]). case_decide; [|done].
    run_handler. by rewrite drop_all.
  - cbv [data_type]. repeat (case_decide; [discriminate|]). case_decide; [|done].
    run_handler. by rewrite drop_all.
Qed.

Ltac each_emission em Hem :=
  rewrite <- ?app_assoc; rewrite ?drop_trace, ?drop_all;
  intros em Hem; cbn [app] in Hem;
  repeat (apply elem_of_cons in Hem; destruct Hem as [->|Hem]);
  try (apply elem_of_nil in Hem; destruct Hem).


Lemma emission_receivers (s : t) (raw : option Data) (em : Emission) :
  em ∈ emissions now random raw s ->
  receivers em = default [] (eventHandlers s !! event_type (emitted em)).
Proof.
  revert em. destruct s as [[ags msgs tks] hs tk dr tr].
  destruct raw as [data|]; unfold emissions, handleMessage.
  2: { run_handler. rewrite drop_all. intros em H. by apply elem_of_nil in H. }
  destruct data as [ty da dm dt daid dtid dpos]. cbv [data_type].
  repeat case_decide; subst.
  all: branch.
  all: each_emission em Hem.
  all: reflexivity.
Qed.

Lemma emission_kinds (s : t) (raw : option Data) (em : Emission) :
  em ∈ emissions now random raw s ->
  event_type (emitted em) ∈ Inbound.domain_types \/
  exists data timestamp, raw = Some data /\ emitted em = CustomEvent data timestamp.
Proof.
  revert em. destruct s as [[ags msgs tks] hs tk dr tr].
  destruct raw as [data|]; unfold emissions, handleMessage.
  2: { run_handler. rewrite drop_all. intros em H. by apply elem_of_nil in H. }
  destruct data as [ty da dm dt daid dtid dpos]. cbv [data_type].
  repeat case_decide; subst.
  all: branch.
  all: each_emission em Hem.
  all: cbn [emitted event_type].
  all: try (left; unfold Inbound.domain_types; in_list).
  right. by eexists _, _.
Qed.

(** X12. The handler that [GooseVisualizer.forwardEvents] subscribes under
    the type ["*"] is not a wildcard: if that is its only subscription, then
    of all the events that handling a message emits it receives only the
    forwarded message itself when that message's [type] is literally ["*"],
    and each such message does reach it. *)
Theorem star_subscriber_sees_only_star (s0 : t) (forward : handler)
    (raw : option Data) (em : Emission) :
  (forall ty handlers, eventHandlers s0 !! ty = Some handlers -> forward ∉ handlers) ->
  let s := exec (Inbound.forwardEvents forward) s0 in
  (em ∈ emissions now random raw s -> forward ∈ receivers em ->
   exists data timestamp,
     raw = Some data /\ data_type data = "*" /\ emitted em = CustomEvent data timestamp) /\
  (forall data, data_type data = "*" ->
     exists timestamp,
       emissions now random (Some data) s
       = [mkEmission (CustomEvent data timestamp)
            (default [] (eventHandlers s0 !! "*") ++ [forward]) (canonical s0)]).
Proof.
  intros Hfresh. cbv zeta. split.
  - intros Hem Hrecv.
    rewrite (emission_receivers _ raw em Hem) in Hrecv.
    assert (Hstar : event_type (emitted em) = "*").
    { destruct (decide (event_type (emitted em) = "*")) as [|Hne]; [done|exfalso].
      cbn in Hrecv. rewrite lookup_insert_ne in Hrecv by done.
      destruct (eventHandlers s0 !! event_type (emitted em)) as [handlers|] eqn:Hh.
      - by apply (Hfresh _ _ Hh).
      - by apply elem_of_nil in Hrecv. }
    destruct (emission_kinds _ raw em Hem) as [Hin|(data & timestamp & -> & Hev)].
    + rewrite Hstar in Hin. unfold Inbound.domain_types in Hin. not_in_list Hin.
    + exists data, timestamp. rewrite Hev in Hstar. by repeat split.
  - intros data Hty.
    destruct s0 as [c hs tk dr tr], data as [ty da dm dt daid dtid dpos].
    cbn in Hty. subst ty. unfold emissions, exec, handleMessage. cbv [data_type].
    repeat (case_decide; [discriminate|]).
    unfold Inbound.forwardEvents, on. run_handler. emitted_list.
    rewrite lookup_insert_eq. by eexists.
Qed.
End AdapterHandlers.

Lemma agent_registered_last_write_wins_witness :
  MCPAdapter.agent_name <$>
    MCPAdapter.agents
      (MCPAdapter.canonical
         (MCPAdapter.exec
            (MCPAdapter.handleMessage Scenario.now Scenario.random
               (Some Inbound.register_a1)) Scenario.populated)) !! "a1"
  = Some "Alicia".
Proof.
  destruct (agent_registered_last_write_wins Scenario.now Scenario.random
              Scenario.populated Inbound.register_a1 _ eq_refl eq_refl)
    as (createdAt & lastActive & timestamp & Hcanonical & _).
  rewrite Hcanonical. cbn [MCPAdapter.agents MCPAdapter.data_agent_id].
  by rewrite lookup_insert_eq.
Defined.

Lemma agent_left_removes_if_known_witness :
  MCPAdapter.agents
    (MCPAdapter.canonical
       (MCPAdapter.exec
          (MCPAdapter.handleMessage Scenario.now Scenario.random
             (Some (Inbound.leave "a1"))) Scenario.populated)) !! "a1"
  = None.
Proof.
  destruct (agent_left_removes_if_known Scenario.now Scenario.random
              Scenario.populated (Inbound.leave "a1") _ eq_refl eq_refl)
    as (_ & _ & Hagents).
  change (MCPAdapter.agents (MCPAdapter.canonical Scenario.populated)
          !! MCPAdapter.data_agent_id (MCPAdapter.mkAgentData "a1" None None))
    with (Some Scenario.alice) in Hagents.
  destruct Hagents as [-> _]. apply lookup_delete_eq.
Defined.

Lemma agent_wait_sets_waiting_witness :
  MCPAdapter.agent_state <$>
    MCPAdapter.agents
      (MCPAdapter.canonical
         (MCPAdapter.exec
            (MCPAdapter.handleMessage Scenario.now Scenario.random
               (Some (Inbound.wait "a1"))) Scenario.populated)) !! "a1"
  = Some MCPAdapter.WAITING.
Proof.
  pose proof (agent_wait_sets_waiting Scenario.now Scenario.random
                Scenario.populated (Inbound.wait "a1") _ eq_refl eq_refl) as Hwait.
  change (MCPAdapter.agents (MCPAdapter.canonical Scenario.populated)
          !! MCPAdapter.data_agent_id (MCPAdapter.mkAgentData "a1" None None))
    with (Some Scenario.alice) in Hwait.
  destruct Hwait as (lastActive & t1 & t2 & -> & _).
  cbn [MCPAdapter.agents MCPAdapter.data_agent_id]. by rewrite lookup_insert_eq.
Defined.

Lemma message_added_appends_witness :
  MCPAdapter.message_content <$>
    last (MCPAdapter.messages
            (MCPAdapter.canonical
               (MCPAdapter.exec
                  (MCPAdapter.handleMessage Scenario.now Scenario.random
                     (Some (Inbound.say "a7" "done"))) Scenario.populated)))
  = Some "done".
Proof.
  destruct (message_added_appends Scenario.now Scenario.random
              Scenario.populated (Inbound.say "a7" "done") _ eq_refl eq_refl)
    as (messageId & stamp & timestamp & -> & _).
  by rewrite last_snoc.
Defined.

Lemma task_added_pending_witness :
  MCPAdapter.task_state <$>
    MCPAdapter.tasks
      (MCPAdapter.canonical
         (MCPAdapter.exec
            (MCPAdapter.handleMessage Scenario.now Scenario.random
               (Some (Inbound.add_task "t1" "Write it again")))
            Scenario.populated)) !! "t1"
  = Some MCPAdapter.PENDING.
Proof.
  destruct (task_added_pending Scenario.now Scenario.random Scenario.populated
              (Inbound.add_task "t1" "Write it again") _ eq_refl eq_refl)
    as (createdAt & timestamp & -> & _).
  cbn [MCPAdapter.tasks MCPAdapter.data_task_id]. by rewrite lookup_insert_eq.
Defined.

Lemma task_assigned_records_assignee_witness :
  MCPAdapter.messages
    (MCPAdapter.canonical
       (MCPAdapter.exec
          (MCPAdapter.handleMessage Scenario.now Scenario.random
             (Some (Inbound.assign "t1" "a7"))) Scenario.populated))
  = MCPAdapter.messages (MCPAdapter.canonical Scenario.populated).
Proof.
  destruct (task_assigned_records_assignee Scenario.now Scenario.random
              Scenario.populated (Inbound.assign "t1" "a7") eq_refl)
    as [Hmessages _].
  exact Hmessages.
Defined.

Lemma task_completed_frees_assignee_witness :
  MCPAdapter.messages
    (MCPAdapter.canonical
       (MCPAdapter.exec
          (MCPAdapter.handleMessage Scenario.now Scenario.random
             (Some (Inbound.complete "t1"))) Scenario.populated))
  = MCPAdapter.messages (MCPAdapter.canonical Scenario.populated).
Proof.
  destruct (task_completed_frees_assignee Scenario.now Scenario.random
              Scenario.populated (Inbound.complete "t1") eq_refl)
    as [Hmessages _].
  exact Hmessages.
Defined.

Lemma system_reset_clears_witness :
  MCPAdapter.canonical
    (MCPAdapter.exec
       (MCPAdapter.handleMessage Scenario.now Scenario.random (Some Inbound.reset))
       Scenario.populated)
  = MCPAdapter.mkCanonical ∅ [] ∅.
Proof.
  destruct (system_reset_clears Scenario.now Scenario.random Scenario.populated
              Inbound.reset eq_refl) as [Hcanonical _].
  exact Hcanonical.
Defined.

Lemma unknown_type_forwarded_witness :
  MCPAdapter.canonical
    (MCPAdapter.exec
       (MCPAdapter.handleMessage Scenario.now Scenario.random (Some Inbound.ping))
       Scenario.populated)
  = MCPAdapter.canonical Scenario.populated.
Proof.
  destruct (unknown_type_forwarded Scenario.now Scenario.random Scenario.populated
              Inbound.ping) as [Hcanonical _]; [|exact Hcanonical].
  unfold Inbound.known_types. intros Hin.
  repeat (apply elem_of_cons in Hin as [Hin|Hin]; [discriminate Hin|]).
  by apply elem_of_nil in Hin.
Defined.

Lemma malformed_dropped_witness :
  MCPAdapter.emissions Scenario.now Scenario.random (Some Inbound.truncated)
    Scenario.populated
  = [].
Proof.
  destruct (malformed_dropped Scenario.now Scenario.random Scenario.populated
              (Some Inbound.truncated)) as [_ Hout]; [|exact Hout].
  right. exists Inbound.truncated. split; [reflexivity|]. left.
  split; [apply list_elem_of_here|reflexivity].
Defined.

Lemma star_subscriber_sees_only_star_witness :
  exists timestamp,
    MCPAdapter.emissions Scenario.now Scenario.random (Some Inbound.star)
      (MCPAdapter.exec (Inbound.forwardEvents 9%nat) Scenario.populated)
    = [MCPAdapter.mkEmission (MCPAdapter.CustomEvent Inbound.star timestamp)
         [9%nat] (MCPAdapter.canonical Scenario.populated)].
Proof.
  destruct (star_subscriber_sees_only_star Scenario.now Scenario.random
              Scenario.populated 9%nat None
              (MCPAdapter.mkEmission (MCPAdapter.SystemResetEvent 0) [] 
                 (MCPAdapter.canonical Scenario.populated)))
    as [_ Hstar].
  - intros ty handlers Hlook Hin.
    destruct (decide (ty = "agent:moved")) as [->|Hne1].
    { vm_compute in Hlook. injection Hlook as <-.
      apply list_elem_of_singleton in Hin. discriminate Hin. }
    destruct (decide (ty = "task:assigned")) as [->|Hne2].
    { vm_compute in Hlook. injection Hlook as <-.
      apply list_elem_of_singleton in Hin. discriminate Hin. }
    unfold Scenario.populated, MCPAdapter.exec, MCPAdapter.on, MCPAdapter.modify,
      mbind, MCPAdapter.M_bind in Hlook. cbn in Hlook.
    rewrite lookup_insert_ne, lookup_insert_ne in Hlook by done.
    by rewrite lookup_empty in Hlook.
  - destruct (Hstar Inbound.star eq_refl) as [timestamp Hout].
    exists timestamp. exact Hout.
Defined.

(** *** The adapter: what holds in every reachable state *)
Section AdapterInvariants.
Import MCPAdapter Reachable.

Variable now : nat -> Z.
Variable random : nat -> string.

Ltac run_handler :=
  cbv [exec handleAgentRegistered handleAgentLeft handleAgentWait
       handleAgentMoved handleMessageAdded handleMessagesCleared handleTaskAdded
       handleTaskAssigned handleTaskCompleted handleTaskMoved handleSystemReset
       change_agent_state thrown find_task find_agent
       mbind M_bind mret M_ret modify get emit Date_now Math_random option_bind
       set_agents set_messages set_tasks set_canonical
       canonical agents messages tasks eventHandlers ticks draws trace
       data_type data_agent data_message data_task data_agentId data_taskId
       data_position task_assignedTo fst snd].

Ltac branch :=
  repeat (run_handler;
          match goal with
          | |- context [match ?x with _ => _ end] =>
              lazymatch x with
              | context [match _ with _ => _ end] => fail
              | _ => destruct x eqn:?
              end
          end);
  run_handler.

(** The record found under a key satisfies what holds of the whole table. *)
Ltac looked_up :=
  repeat match goal with
         | Hall : map_Forall ?P ?m, Hlook : ?m !! ?k = Some ?x |- _ =>
             lazymatch goal with
             | _ : P k x |- _ => fail
             | _ => pose proof (map_Forall_lookup_1 P m k x Hall Hlook)
             end
         end.

Ltac tables :=
  repeat match goal with
         | |- map_Forall _ _ =>
             first [ assumption
                   | apply map_Forall_empty
                   | apply map_Forall_delete
                   | apply map_Forall_insert_2 ]
         end.

Lemma handleMessage_keeps_records_ok (s : t) (raw : option Data) :
  map_Forall agent_ok (agents (canonical s)) ->
  map_Forall task_ok (tasks (canonical s)) ->
  let s' := exec (handleMessage now random raw) s in
  map_Forall agent_ok (agents (canonical s')) /\
  map_Forall task_ok (tasks (canonical s')).
Proof.
  destruct s as [[ags msgs tks] hs tk dr tr]. cbn [canonical agents tasks].
  intros Hags Htks. cbv zeta.
  destruct raw as [data|]; unfold handleMessage; [|by run_handler].
  destruct data as [ty da dm dt daid dtid dpos]. cbv [data_type].
  repeat case_decide; subst.
  all: branch; looked_up.
  all: split; tables.
  all: unfold agent_ok, task_ok in *; cbn.
  all: repeat match goal with H : _ /\ _ |- _ => destruct H as [? ?] end.
  all: repeat split; try done; try congruence.
  all: try (intros; discriminate).
  all: try (by eexists).
  all: by match goal with H : ?P -> _ /\ _, HP : ?P |- _ => destruct (H HP) end.
Qed.

Lemma exec_onmessages_cons (raw : option Data) (rest : list (option Data)) (s : t) :
  exec (Inbound.onmessages now random (raw :: rest)) s
  = exec (Inbound.onmessages now random rest) (exec (handleMessage now random raw) s).
Proof.
  unfold exec. cbn [Inbound.onmessages]. unfold mbind, M_bind.
  by destruct (handleMessage now random raw s).
Qed.

(** X13. Whatever stream of messages an adapter with empty tables has
    handled, every agent and every task is filed under its own identity; no
    agent is [thinking] or [disconnected] and no task [in_progress] or
    [cancelled]; a [pending] task has neither assignee nor completion time,
    and a [completed] one has a completion time. *)
Theorem reachable_records_consistent (s0 : t) (raws : list (option Data)) :
  canonical s0 = mkCanonical ∅ [] ∅ ->
  let s := exec (Inbound.onmessages now random raws) s0 in
  map_Forall agent_ok (agents (canonical s)) /\
  map_Forall task_ok (tasks (canonical s)).
Proof.
  intros Hempty. cbv zeta.
  assert (Hstart : map_Forall agent_ok (agents (canonical s0)) /\
                   map_Forall task_ok (tasks (canonical s0))).
  { rewrite Hempty. split; apply map_Forall_empty. }
  clear Hempty. revert s0 Hstart.
  induction raws as [|raw rest IH]; intros s0 [Hags Htks]; [by split|].
  rewrite exec_onmessages_cons. apply IH.
  by apply handleMessage_keeps_records_ok.
Qed.

Lemma agent_stamped_mono (n m : nat) (a : Agent) :
  n <= m -> agent_stamped now n a -> agent_stamped now m a.
Proof. intros Hle (i & j & Hij & Hc & Hl). exists i, j. split; [lia|done]. Qed.

Lemma task_stamped_mono (n m : nat) (task : Task) :
  n <= m -> task_stamped now n task -> task_stamped now m task.
Proof.
  intros Hle (i & Hi & Hc & Hdone). exists i. split; [lia|]. split; [done|].
  intros c Hcomp. destruct (Hdone c Hcomp) as (j & Hj & ->). exists j. split; [lia|done].
Qed.

Lemma handleMessage_keeps_stamps (s : t) (raw : option Data) :
  map_Forall (fun _ => agent_stamped now (ticks s)) (agents (canonical s)) ->
  map_Forall (fun _ => task_stamped now (ticks s)) (tasks (canonical s)) ->
  let s' := exec (handleMessage now random raw) s in
  map_Forall (fun _ => agent_stamped now (ticks s')) (agents (canonical s')) /\
  map_Forall (fun _ => task_stamped now (ticks s')) (tasks (canonical s')).
Proof.
  destruct s as [[ags msgs tks] hs tk dr tr]. cbn [canonical agents tasks ticks].
  intros Hags Htks. cbv zeta.
  destruct raw as [data|]; unfold handleMessage; [|by run_handler].
  destruct data as [ty da dm dt daid dtid dpos]. cbv [data_type].
  repeat case_decide; subst.
  all: branch; looked_up; cbv beta in *.
  all: split.
  all: repeat match goal with
              | |- map_Forall _ _ =>
                  first [ assumption
                        | apply map_Forall_empty
                        | apply map_Forall_delete
                        | apply map_Forall_insert_2
                        | (eapply map_Forall_impl; [eassumption|];
                           intros ? ?;
                           first [apply agent_stamped_mono | apply task_stamped_mono];
                           lia) ]
              end.
  all: unfold agent_stamped, task_stamped in *; cbn.
  all: repeat match goal with
              | H : exists _, _ |- _ => destruct H as [? H]
              | H : _ /\ _ |- _ => destruct H as [? ?]
              end.
  all: try (eexists _, _;
            (split; [|split; [first [eassumption|reflexivity]|reflexivity]]); lia).
  all: eexists; (split; [|split; [first [eassumption|reflexivity]|]]); [lia|].
  all: intros c Hc.
  all: first
         [ discriminate Hc
         | injection Hc as <-; eexists; (split; [|reflexivity]); lia
         | match goal with
           | Hd : forall c, _ = Some c -> _ |- _ =>
               destruct (Hd c Hc) as (j & ? & ->); exists j; split; [lia|reflexivity]
           end ].
Qed.

(** X14. With a clock that never runs backwards, whatever stream of messages
    an adapter with empty tables has handled: no agent was last active
    before it was created, and no task was completed before it was
    created. *)
Theorem reachable_stamps_ordered (s0 : t) (raws : list (option Data)) :
  (forall i j, i <= j -> (now i <= now j)%Z) ->
  canonical s0 = mkCanonical ∅ [] ∅ ->
  let s := exec (Inbound.onmessages now random raws) s0 in
  (forall key agent,
     agents (canonical s) !! key = Some agent ->
     (agent_createdAt agent <= agent_lastActive agent)%Z) /\
  (forall key task completedAt,
     tasks (canonical s) !! key = Some task ->
     task_completedAt task = Some completedAt ->
     (task_createdAt task <= completedAt)%Z).
Proof.
  intros Hmono Hempty. cbv zeta.
  assert (Hinv :
    map_Forall (fun _ => agent_stamped now
                  (ticks (exec (Inbound.onmessages now random raws) s0)))
      (agents (canonical (exec (Inbound.onmessages now random raws) s0))) /\
    map_Forall (fun _ => task_stamped now
                  (ticks (exec (Inbound.onmessages now random raws) s0)))
      (tasks (canonical (exec (Inbound.onmessages now random raws) s0)))).
  { assert (Hstart :
      map_Forall (fun _ => agent_stamped now (ticks s0)) (agents (canonical s0)) /\
      map_Forall (fun _ => task_stamped now (ticks s0)) (tasks (canonical s0))).
    { rewrite Hempty. split; apply map_Forall_empty. }
    clear Hempty. revert s0 Hstart.
    induction raws as [|raw rest IH]; intros s0 [Hags Htks]; [by split|].
    rewrite exec_onmessages_cons. apply IH.
    by apply handleMessage_keeps_stamps. }
  destruct Hinv as [Hags Htks]. split.
  - intros key agent Hlook.
    destruct (Hags key agent Hlook) as (i & j & Hij & -> & ->). apply Hmono. lia.
  - intros key task completedAt Hlook Hdone.
    destruct (Htks key task Hlook) as (i & Hi & -> & Hcomp).
    destruct (Hcomp completedAt Hdone) as (j & Hj & ->). apply Hmono. lia.
Qed.

End AdapterInvariants.

Lemma reachable_records_consistent_witness :
  map_Forall Reachable.agent_ok
    (MCPAdapter.agents
       (MCPAdapter.canonical
          (MCPAdapter.exec
             (Inbound.onmessages Scenario.now Scenario.random Inbound.session)
             MCPAdapter.new))) /\
  map_Forall Reachable.task_ok
    (MCPAdapter.tasks
       (MCPAdapter.canonical
          (MCPAdapter.exec
             (Inbound.onmessages Scenario.now Scenario.random Inbound.session)
             MCPAdapter.new))).
Proof.
  apply (reachable_records_consistent Scenario.now Scenario.random MCPAdapter.new
           Inbound.session).
  reflexivity.
Defined.

Lemma reachable_stamps_ordered_witness :
  (forall key agent,
     MCPAdapter.agents
       (MCPAdapter.canonical
          (MCPAdapter.exec
             (Inbound.onmessages Scenario.now Scenario.random Inbound.session)
             MCPAdapter.new)) !! key = Some agent ->
     (MCPAdapter.agent_createdAt agent <= MCPAdapter.agent_lastActive agent)%Z) /\
  (forall key task completedAt,
     MCPAdapter.tasks
       (MCPAdapter.canonical
          (MCPAdapter.exec
             (Inbound.onmessages Scenario.now Scenario.random Inbound.session)
             MCPAdapter.new)) !! key = Some task ->
     MCPAdapter.task_completedAt task = Some completedAt ->
     (MCPAdapter.task_createdAt task <= completedAt)%Z).
Proof.
  apply (reachable_stamps_ordered Scenario.now Scenario.random MCPAdapter.new
           Inbound.session).
  - intros i j Hij. unfold Scenario.now. lia.
  - reflexivity.
Defined.

(** *** The event emitter *)
Section EmitterFacts.
Import MCPAdapter.

Lemma findIndex_None {A : Type} (pred : A -> bool) (l : list A) :
  findIndex pred l = None <-> Forall (fun a => pred a = false) l.
Proof.
  induction l as [|a l IH]; cbn; [by split; [constructor|]|].
  destruct (pred a) eqn:Ha.
  - split; [discriminate|]. intros H. apply Forall_cons in H as [H _]. congruence.
  - rewrite fmap_None, IH. split; [by constructor|]. intros H. by apply Forall_cons in H as [_ H].
Qed.

Lemma findIndex_Some {A : Type} (pred : A -> bool) (l : list A) (i : nat) :
  findIndex pred l = Some i ->
  exists a, l !! i = Some a /\ pred a = true /\
            Forall (fun b => pred b = false) (take i l).
Proof.
  revert i. induction l as [|a l IH]; intros i; cbn; [discriminate|].
  destruct (pred a) eqn:Ha.
  - intros [= <-]. exists a. repeat split; [done|constructor].
  - destruct (findIndex pred l) as [j|]; [|discriminate]. intros [= <-].
    destruct (IH j eq_refl) as (b & Hb & Hpb & Hbefore).
    exists b. repeat split; try done. cbn. by constructor.
Qed.

Lemma findIndex_app_fresh {A : Type} (pred : A -> bool) (l : list A) (a : A) :
  Forall (fun b => pred b = false) l -> pred a = true ->
  findIndex pred (l ++ [a]) = Some (length l).
Proof.
  intros Hl Ha. induction Hl as [|b l Hb Hl IH]; cbn; [by rewrite Ha|].
  by rewrite Hb, IH.
Qed.

(** X15. [on] appends: the new handler is called after those already
    subscribed to the type, once per subscription, so subscribing the same
    handler again makes it receive each event twice; subscriptions to other
    types and the canonical state are untouched. *)
Theorem on_appends_subscriber (s : t) (eventType : string) (f : handler) :
  let s' := exec (on eventType f) s in
  subscribers s' eventType = subscribers s eventType ++ [f] /\
  (listenerCount eventType s').1 = S (listenerCount eventType s).1 /\
  (forall other, other <> eventType -> subscribers s' other = subscribers s other) /\
  canonical s' = canonical s /\ trace s' = trace s /\
  forall ev, event_type ev = eventType ->
    trace (exec (emit ev) s')
    = trace s ++ [mkEmission ev (subscribers s eventType ++ [f]) (canonical s)].
Proof.
  destruct s as [c hs tk dr tr]. cbv zeta. unfold subscribers.
  cbn. rewrite lookup_insert_eq. cbn.
  split; [reflexivity|]. split.
  - unfold listenerCount, mbind, M_bind, mret, M_ret, get. cbn.
    rewrite lookup_insert_eq, length_app. destruct (hs !! eventType); cbn; lia.
  - split; [intros other Hne; by rewrite lookup_insert_ne|].
    split; [reflexivity|]. split; [reflexivity|].
    intros ev ->. by rewrite lookup_insert_eq.
Qed.

(** X16. [off] removes one subscription, the oldest one of that handler, and
    does nothing when the handler (or the type) is not subscribed.  So
    undoing an [on] by the matching [off] gives back the subscribers there
    were only if the handler was not subscribed before; if it was, the
    handler ends up last in line. *)
Theorem off_removes_oldest (s : t) (eventType : string) (f : handler) :
  let s' := exec (off eventType f) s in
  canonical s' = canonical s /\ trace s' = trace s /\
  (forall other, other <> eventType -> subscribers s' other = subscribers s other) /\
  (f ∉ subscribers s eventType -> s' = s) /\
  (forall before after,
     subscribers s eventType = before ++ f :: after -> f ∉ before ->
     subscribers s' eventType = before ++ after) /\
  (f ∉ subscribers s eventType ->
   subscribers (exec (on eventType f;; off eventType f) s) eventType
   = subscribers s eventType) /\
  (forall before after,
     subscribers s eventType = before ++ f :: after -> f ∉ before ->
     subscribers (exec (on eventType f;; off eventType f) s) eventType
     = before ++ after ++ [f]).
Proof.
  destruct s as [c hs tk dr tr]. cbv zeta. unfold subscribers.
  assert (Hfresh : forall l, f ∉ l ->
            Forall (fun g => bool_decide (g = f) = false) l).
  { intros l Hl. apply Forall_forall. intros g Hg.
    apply bool_decide_eq_false. intros ->. done. }
  assert (Hfound : forall before after, f ∉ before ->
            findIndex (fun g => bool_decide (g = f)) (before ++ f :: after)
            = Some (length before)).
  { intros before after Hb. specialize (Hfresh before Hb).
    induction Hfresh as [|g l Hg Hl IH]; cbn; [by rewrite bool_decide_eq_true_2|].
    rewrite Hg. rewrite IH; [done|]. intros Hin. apply Hb. by right. }
  assert (Hdelete : forall before after : list handler,
            delete (length before) (before ++ f :: after) = before ++ after).
  { intros before after. induction before as [|g l IH]; [done|].
    change (g :: delete (length l) (l ++ f :: after) = g :: (l ++ after)).
    by rewrite IH. }
  cbn. split; [by destruct (hs !! eventType) as [l|];
                 [destruct (findIndex _ l)|]|].
  split; [by destruct (hs !! eventType) as [l|]; [destruct (findIndex _ l)|]|].
  split.
  { intros other Hne. destruct (hs !! eventType) as [l|]; [|done].
    destruct (findIndex _ l); [|done]. cbn. by rewrite lookup_insert_ne. }
  split.
  { destruct (hs !! eventType) as [l|] eqn:Hl; cbn; [|done].
    intros Hnot. apply Hfresh, findIndex_None in Hnot. by rewrite Hnot. }
  split.
  { intros before after Heq Hb. destruct (hs !! eventType) as [l|] eqn:Hl; cbn in Heq.
    - subst l. rewrite (Hfound before after Hb). cbn. rewrite lookup_insert_eq. cbn.
      apply Hdelete.
    - by destruct before. }
  split.
  { intros Hnot. unfold exec, mbind, M_bind, on, off, modify. cbn.
    rewrite lookup_insert_eq.
    rewrite (findIndex_app_fresh _ _ f (Hfresh _ Hnot)) by by apply bool_decide_eq_true_2.
    cbn. rewrite lookup_insert_eq. cbn.
    replace (default [] (hs !! eventType) ++ [f])
      with (default [] (hs !! eventType) ++ f :: []) by done.
    by rewrite Hdelete, app_nil_r. }
  intros before after Heq Hb. unfold exec, mbind, M_bind, on, off, modify. cbn.
  rewrite lookup_insert_eq, Heq.
  rewrite <- app_assoc. cbn [app]. rewrite (Hfound before (after ++ [f]) Hb).
  cbn. rewrite lookup_insert_eq. cbn. apply Hdelete.
Qed.

End EmitterFacts.

(** *** The spatial grid: entities *)
Section GridEntities.
Import IsometricGrid.

(** The references a slot, a column and a row contribute to [collect]. *)
Local Abbreviation slot_refs :=
  (fun cell : option GridCell =>
     match cell with
     | Some cell => entities cell
     | None => []
     end).
Local Abbreviation column_refs := (fun col : list (option GridCell) => col ≫= slot_refs).
Local Abbreviation row_refs :=
  (fun row : list (list (option GridCell)) => row ≫= column_refs).

Lemma bind_alter_split {A B : Type} (f : A -> list B) (upd : A -> A) (l : list A)
    (i : nat) (a : A) :
  l !! i = Some a ->
  l ≫= f = (take i l ≫= f) ++ f a ++ (drop (S i) l ≫= f) /\
  alter upd i l ≫= f = (take i l ≫= f) ++ f (upd a) ++ (drop (S i) l ≫= f).
Proof.
  revert i. induction l as [|b l IH]; intros i Hi; [done|].
  destruct i as [|i]; cbn in Hi.
  - injection Hi as ->. done.
  - destruct (IH i Hi) as [E1 E2]. split.
    + change (f b ++ (l ≫= f) = (f b ++ (take i l ≫= f)) ++ f a ++ (drop (S i) l ≫= f)).
      by rewrite E1, <- app_assoc.
    + change (f b ++ (alter upd i l ≫= f)
              = (f b ++ (take i l ≫= f)) ++ f (upd a) ++ (drop (S i) l ≫= f)).
      by rewrite E2, <- app_assoc.
Qed.

Lemma holes_no_refs (n : nat) : replicate n (@None GridCell) ≫= slot_refs = [].
Proof. induction n as [|n IH]; [done|]. exact IH. Qed.

(** Writing a cell into a column replaces the references of the slot and
    no others. *)
Lemma column_refs_array_set (col : list (option GridCell)) (k : nat) :
  exists before after,
    column_refs col
    = before ++ from_option entities [] (array_get col k) ++ after /\
    forall c, column_refs (array_set col k c) = before ++ entities c ++ after.
Proof.
  unfold array_get, array_set. destruct (decide (k < length col)) as [Hk|Hk].
  - destruct (lookup_lt_is_Some_2 col k Hk) as [slot Hslot].
    exists (take k col ≫= slot_refs), (drop (S k) col ≫= slot_refs). split.
    + rewrite Hslot. rewrite <- (take_drop_middle col k slot Hslot) at 1.
      rewrite bind_app, bind_cons. by destruct slot.
    + intros c. rewrite insert_take_drop by done.
      by rewrite bind_app, bind_cons.
  - exists (col ≫= slot_refs), []. split.
    + rewrite lookup_ge_None_2 by lia. cbn. by rewrite app_nil_r.
    + intros c. rewrite !bind_app, holes_no_refs.
      cbn. by rewrite app_nil_r.
Qed.

(** The same through the three levels of the array. *)
Lemma collect_set_cell (g : t) (x y z : Z) (row : list (list (option GridCell)))
    (col : list (option GridCell)) :
  grid g !! Z.to_nat x = Some row -> row !! Z.to_nat y = Some col ->
  exists before after,
    collect g
    = before ++ from_option entities [] (array_get col (Z.to_nat z)) ++ after /\
    forall c, collect (set_cell g x y z c) = before ++ entities c ++ after.
Proof.
  intros Hrow Hcol.
  destruct (column_refs_array_set col (Z.to_nat z)) as (b & a & Ecol & Eset).
  exists ((take (Z.to_nat x) (grid g) ≫= row_refs)
          ++ (take (Z.to_nat y) row ≫= column_refs) ++ b),
         (a ++ (drop (S (Z.to_nat y)) row ≫= column_refs)
          ++ (drop (S (Z.to_nat x)) (grid g) ≫= row_refs)).
  split.
  - unfold collect.
    destruct (bind_alter_split row_refs (fun r => r) (grid g) _ row Hrow) as [-> _].
    destruct (bind_alter_split column_refs (fun c => c) row _ col Hcol) as [-> _].
    rewrite Ecol. by rewrite <- !app_assoc.
  - intros c. unfold collect, set_cell. cbn [grid set_grid].
    destruct (bind_alter_split row_refs
                (alter (fun col => array_set col (Z.to_nat z) c) (Z.to_nat y))
                (grid g) _ row Hrow) as [_ ->].
    destruct (bind_alter_split column_refs
                (fun col => array_set col (Z.to_nat z) c) row _ col Hcol) as [_ ->].
    rewrite Eset. by rewrite <- !app_assoc.
Qed.

(** What [getCell] leaves behind: the cell it returns is stored, its
    references sit where the slot's were, and nothing was added. *)
Lemma getCell_collect (g g1 : t) (x y z : Z) (cell : GridCell) :
  getCell g x y z = Returned (g1, Some cell) ->
  config g1 = config g /\ collect g1 = collect g /\
  exists before after,
    collect g = before ++ entities cell ++ after /\
    forall c, collect (set_cell g1 x y z c) = before ++ entities c ++ after.
Proof.
  unfold getCell. destruct (isInBounds g x y z); cbn; [|discriminate].
  unfold column.
  destruct (grid g !! Z.to_nat x) as [row|] eqn:Hrow; cbn; [|discriminate].
  destruct (row !! Z.to_nat y) as [col|] eqn:Hcol; cbn; [|discriminate].
  destruct (collect_set_cell g x y z row col Hrow Hcol) as (b & a & Eg & Eset).
  destruct (array_get col (Z.to_nat z)) as [c0|] eqn:Hget; intros [= <- <-].
  - split; [reflexivity|]. split; [reflexivity|]. by exists b, a.
  - cbn in Eg. split; [reflexivity|]. split; [by rewrite Eset, Eg|].
    assert (Hrow1 : grid (set_cell g x y z
                            (mkGridCell x y z (z =? 0)%Z []
                               (if (z =? 0)%Z then floor else empty)))
                    !! Z.to_nat x
                    = Some (alter (fun col => array_set col (Z.to_nat z)
                              (mkGridCell x y z (z =? 0)%Z []
                                 (if (z =? 0)%Z then floor else empty)))
                              (Z.to_nat y) row)).
    { cbn. by rewrite list_lookup_alter_eq, Hrow. }
    destruct (collect_set_cell _ x y z _ _ Hrow1
                ltac:(by rewrite list_lookup_alter_eq, Hcol))
      as (b1 & a1 & Eg1 & Eset1).
    rewrite array_get_set_eq, Eset in Eg1. cbn [from_option entities] in Eg1.
    exists b1, a1. split; [|exact Eset1].
    rewrite Eg. cbn [entities]. exact Eg1.
Qed.

Lemma getCell_None (g g1 : t) (x y z : Z) :
  getCell g x y z = Returned (g1, None) -> g1 = g.
Proof.
  unfold getCell. destruct (isInBounds g x y z); cbn; [|by intros [= <-]].
  destruct (column g x y) as [col|]; cbn; [|discriminate].
  by destruct (array_get col (Z.to_nat z)).
Qed.

(** A scan that splices the first match out of the first element that has
    one removes the first match of the concatenation. *)
Section FirstMatch.
Context {A : Type}.
Variable p : nat -> bool.
Variable flat : A -> list nat.
Variable step : A -> option A.
Variable scan : list A -> option (list A).

Hypothesis step_spec : forall a,
  match step a with
  | Some a' =>
      exists before e after,
        flat a = before ++ e :: after /\ Forall (fun x => p x = false) before /\
        p e = true /\ flat a' = before ++ after
  | None => Forall (fun x => p x = false) (flat a)
  end.
Hypothesis scan_nil : scan [] = None.
Hypothesis scan_cons : forall a rest,
  scan (a :: rest)
  = match step a with
    | Some a' => Some (a' :: rest)
    | None => (fun r => a :: r) <$> scan rest
    end.

Lemma scan_spec (l : list A) :
  match scan l with
  | Some l' =>
      exists before e after,
        l ≫= flat = before ++ e :: after /\ Forall (fun x => p x = false) before /\
        p e = true /\ l' ≫= flat = before ++ after
  | None => Forall (fun x => p x = false) (l ≫= flat)
  end.
Proof.
  induction l as [|a l IH]; [rewrite scan_nil; constructor|].
  rewrite scan_cons. pose proof (step_spec a) as Ha.
  destruct (step a) as [a'|].
  - destruct Ha as (b & e & af & E & Hb & He & E').
    exists b, e, (af ++ (l ≫= flat)). rewrite !bind_cons, E, E'.
    by rewrite <- !app_assoc.
  - destruct (scan l) as [l'|]; cbn [fmap option_fmap option_map].
    + destruct IH as (b & e & af & E & Hb & He & E').
      exists (flat a ++ b), e, af. rewrite !bind_cons, E, E', <- !app_assoc.
      split; [done|]. split; [by apply Forall_app|done].
    + rewrite bind_cons. by apply Forall_app.
Qed.

End FirstMatch.

Lemma remove_in_column_spec (h : heap) (entityId : string)
    (col : list (option GridCell)) :
  match remove_in_column h entityId col with
  | Some col' =>
      exists before e after,
        column_refs col = before ++ e :: after /\
        Forall (fun x => has_id h entityId x = false) before /\
        has_id h entityId e = true /\ column_refs col' = before ++ after
  | None => Forall (fun x => has_id h entityId x = false) (column_refs col)
  end.
Proof.
  apply (scan_spec (has_id h entityId) slot_refs
           (fun slot =>
              match slot with
              | Some cell =>
                  match findIndex (has_id h entityId) (entities cell) with
                  | Some entityIndex =>
                      Some (Some (mkGridCell (cell_x cell) (cell_y cell) (cell_z cell)
                                    (walkable cell)
                                    (delete entityIndex (entities cell)) (type cell)))
                  | None => None
                  end
              | None => None
              end)).
  - intros [cell|]; [|constructor].
    destruct (findIndex (has_id h entityId) (entities cell)) as [i|] eqn:Hfind.
    + destruct (findIndex_Some _ _ _ Hfind) as (e & He & Hpe & Hbefore).
      exists (take i (entities cell)), e, (drop (S i) (entities cell)).
      split; [by rewrite take_drop_middle|]. split; [done|]. split; [done|].
      cbn. apply delete_take_drop.
    + by apply findIndex_None.
  - reflexivity.
  - intros [cell|] rest; cbn; [|reflexivity].
    by destruct (findIndex (has_id h entityId) (entities cell)).
Qed.

Lemma remove_in_row_spec (h : heap) (entityId : string)
    (row : list (list (option GridCell))) :
  match remove_in_row h entityId row with
  | Some row' =>
      exists before e after,
        row_refs row = before ++ e :: after /\
        Forall (fun x => has_id h entityId x = false) before /\
        has_id h entityId e = true /\ row_refs row' = before ++ after
  | None => Forall (fun x => has_id h entityId x = false) (row_refs row)
  end.
Proof.
  apply (scan_spec (has_id h entityId) column_refs (remove_in_column h entityId)).
  - apply remove_in_column_spec.
  - reflexivity.
  - reflexivity.
Qed.

(** X17. [removeEntity] removes one reference: the first one, in the order
    in which [getAllEntities] scans the cells, whose entity carries the
    identity.  It answers [true] exactly when there is one, and leaves the
    grid as it is otherwise; an entity placed twice, or two entities with
    the same identity, need as many calls. *)
Theorem removeEntity_first_match (h : heap) (g : t) (entityId : string) :
  let missing := fun e => has_id h entityId e = false in
  (Forall missing (collect g) /\ removeEntity h g entityId = (g, false)) \/
  (exists g' before e after,
     removeEntity h g entityId = (g', true) /\ config g' = config g /\
     collect g = before ++ e :: after /\
     Forall missing before /\ has_id h entityId e = true /\
     collect g' = before ++ after).
Proof.
  cbv zeta. unfold removeEntity.
  pose proof (scan_spec (has_id h entityId) row_refs (remove_in_row h entityId)
                (remove_in_grid h entityId) (remove_in_row_spec h entityId)
                eq_refl (fun _ _ => eq_refl) (grid g)) as Hscan.
  destruct (remove_in_grid h entityId (grid g)) as [cells|].
  - right. destruct Hscan as (b & e & af & E & Hb & He & E').
    exists (set_grid cells g), b, e, af. by repeat split.
  - left. by split.
Qed.





End GridEntities.

(** *** The spatial grid: walkability *)
Section GridWalkability.
Import IsometricGrid.

(** X21. [setWalkable] has the last word: inside the bounds, after
    [setCellType] with any type and then [setWalkable] with any value, the
    cell has that type and that walkability, so a wall can be made walkable
    and a floor cell blocked.  Outside the bounds both setters do nothing
    and no cell is walkable. *)
Theorem setWalkable_overrides_type (g : t) (x y z : Z) (ty : CellType) (w : bool) :
  well_formed g ->
  if isInBounds g x y z then
    exists g1 g2 c,
      setCellType g x y z ty = Returned g1 /\
      setWalkable g1 x y z w = Returned g2 /\
      getCell g2 x y z = Returned (g2, Some c) /\ type c = ty /\ walkable c = w /\
      isWalkable g2 x y z = Returned (g2, w)
  else
    setCellType g x y z ty = Returned g /\ setWalkable g x y z w = Returned g /\
    isWalkable g x y z = Returned (g, false).
Proof.
  intros Hwf. destruct (isInBounds g x y z) eqn:Hin.
  - destruct (getCell_in_bounds g x y z Hwf Hin)
      as (g1 & c & row & col & Hget & Hwf1 & Hcfg & Hrow & Hcol & Hc & _ & _).
    set (typed := mkGridCell (cell_x c) (cell_y c) (cell_z c) (walkable c)
                    (entities c) ty).
    set (c' := match ty with
               | wall | object =>
                   mkGridCell (cell_x typed) (cell_y typed) (cell_z typed) false
                     (entities typed) (type typed)
               | _ => typed
               end).
    assert (Hty : type c' = ty) by (by destruct ty).
    set (g2 := set_cell g1 x y z c').
    assert (Hwf2 : well_formed g2) by (by apply set_cell_well_formed).
    assert (Hin2 : isInBounds g2 x y z = true).
    { rewrite isInBounds_spec. unfold g2. rewrite set_cell_config, Hcfg.
      by apply isInBounds_spec. }
    assert (Hget2 : getCell g2 x y z = Returned (g2, Some c')).
    { apply getCell_stored; [done|done|]. by eapply cell_at_set_cell_eq. }
    set (c'' := mkGridCell (cell_x c') (cell_y c') (cell_z c') w (entities c')
                  (type c')).
    set (g3 := set_cell g2 x y z c'').
    assert (Hget3 : getCell g3 x y z = Returned (g3, Some c'')).
    { apply getCell_stored.
      - by apply set_cell_well_formed.
      - rewrite isInBounds_spec. unfold g3. rewrite set_cell_config.
        by apply isInBounds_spec.
      - unfold g3, g2. eapply cell_at_set_cell_eq.
        + cbn. by rewrite list_lookup_alter_eq, Hrow.
        + by rewrite list_lookup_alter_eq, Hcol. }
    exists g2, g3, c''. split; [unfold setCellType; by rewrite Hget|].
    split; [unfold setWalkable; by rewrite Hget2|].
    split; [exact Hget3|]. split; [exact Hty|]. split; [reflexivity|].
    unfold isWalkable. by rewrite Hget3.
  - unfold setCellType, setWalkable, isWalkable.
    by rewrite (getCell_out_of_bounds g x y z Hin).
Qed.

(** X22. On the grid the constructor returns the walkable cells are exactly
    the cells of the ground layer inside the bounds: a cell of a higher
    layer does not exist until it is asked for and is created blocked. *)
Theorem new_walkable_ground (cfg : GridConfig) (x y z : Z) :
  exists g g',
    new cfg = Returned g /\ width (config g) = width cfg /\
    height (config g) = height cfg /\
    isWalkable g x y z = Returned (g', isInBounds g x y z && (z =? 0)%Z).
Proof.
  destruct (new_returns cfg) as (g & Hnew & Hwf & Hw & Hh & Hgrid).
  exists g. destruct (isInBounds g x y z) eqn:Hin.
  - pose proof Hin as Hb. apply isInBounds_spec in Hb as (Hx & Hy & Hz).
    assert (Hcolumn : column g x y
                      = Returned [Some (mkGridCell x y 0 true [] floor)]).
    { unfold column. rewrite Hgrid. unfold initializeGrid.
      rewrite list_lookup_fmap, (lookup_seqZ_lt _ _ (Z.to_nat x)) by lia. cbn.
      rewrite list_lookup_fmap, (lookup_seqZ_lt _ _ (Z.to_nat y)) by lia. cbn.
      by rewrite !Z2Nat.id by lia. }
    unfold isWalkable, getCell. rewrite Hin, Hcolumn. cbn [negb mbind outcome_bind].
    destruct (Z.eqb_spec z 0) as [->|Hne].
    + eexists. by repeat split.
    + assert (Hget : array_get [Some (mkGridCell x y 0 true [] floor)] (Z.to_nat z)
                     = None).
      { destruct (Z.to_nat z) as [|k] eqn:Hk; [lia|]. by destruct k. }
      rewrite Hget. eexists. by repeat split.
  - unfold isWalkable. rewrite (getCell_out_of_bounds g x y z Hin).
    eexists. by repeat split.
Qed.

End GridWalkability.




Lemma setWalkable_overrides_type_witness :
  exists g1 g2,
    IsometricGrid.setCellType Plan.opened 1 2 0 IsometricGrid.wall = Returned g1 /\
    IsometricGrid.setWalkable g1 1 2 0 true = Returned g2 /\
    IsometricGrid.isWalkable g2 1 2 0 = Returned (g2, true).
Proof.
  pose proof (setWalkable_overrides_type Plan.opened 1 2 0 IsometricGrid.wall true)
    as Hset.
  destruct Hset as (g1 & g2 & c & Htype & Hwalk & _ & _ & _ & Hask).
  - split; [reflexivity|]. cbn. repeat constructor.
  - by exists g1, g2.
Defined.

(** *** Screen coordinates of the layers *)
Section CoordinateLayers.
Import IsometricUtils.



End CoordinateLayers.


(** *** Routes *)
Section Routes.
Import IsometricUtils IsometricRoutes.

Variable obstacles : list Position.
Variables endX endY : Z.







End Routes.



(** *** The entity table of the themes *)
Section ThemeEntityFacts.
Import BaseTheme ThemeEntities.

(** One frame advances an object once for each entry of the table that
    refers to it. *)
Lemma processAnimations_lookup (th : t) (deltaTime : num) (entity : nat) (h : heap) :
  (processAnimations h th deltaTime).1 !! entity
  = Nat.iter (registrations th entity) (fun e => (advance deltaTime e).1)
      <$> h !! entity.
Proof.
  unfold processAnimations, registrations.
  generalize ([] : list (nat * callback)) as invoked. revert h.
  induction (entities th) as [|[key l] rest IH]; intros h invoked.
  - cbn. by destruct (h !! entity).
  - cbn [foldl]. rewrite filter_cons. cbn [snd].
    destruct (h !! l) as [el|] eqn:Hl.
    + destruct (advance deltaTime el) as [el' cbs] eqn:Hadv. rewrite IH.
      destruct (decide (l = entity)) as [->|Hne].
      * rewrite lookup_insert_eq, Hl. cbn [fmap option_fmap option_map length].
        rewrite Nat.iter_succ_r, Hadv. reflexivity.
      * by rewrite lookup_insert_ne.
    + rewrite IH. destruct (decide (l = entity)) as [->|Hne]; [|reflexivity].
      by rewrite Hl.
Qed.

Lemma processAnimations_callbacks (th : t) (deltaTime : num) (entity : nat)
    (cb : callback) (h : heap) :
  (entity, cb) ∈ (processAnimations h th deltaTime).2 -> 0 < registrations th entity.
Proof.
  unfold processAnimations, registrations.
  assert (Hgen : forall invoked,
            (entity, cb) ∈ (foldl
               (fun '(h, invoked) '(_, entity) =>
                  match h !! entity with
                  | Some e =>
                      let '(e, cbs) := advance deltaTime e in
                      (<[entity := e]> h, invoked ++ ((fun cb => (entity, cb)) <$> cbs))
                  | None => (h, invoked)
                  end) (h, invoked) (entities th)).2 ->
            (entity, cb) ∈ invoked \/
            0 < length (filter (fun entry => entry.2 = entity) (entities th))).
  { revert h. induction (entities th) as [|[key l] rest IH]; intros h invoked.
    - cbn. by left.
    - cbn [foldl]. rewrite filter_cons. cbn [snd].
      destruct (h !! l) as [el|] eqn:Hl.
      + destruct (advance deltaTime el) as [el' cbs] eqn:Hadv. intros Hin.
        destruct (IH _ _ Hin) as [Hin'|Hpos].
        * apply elem_of_app in Hin' as [Hin'|Hin']; [by left|].
          apply list_elem_of_fmap in Hin' as (cb' & Heq & _). injection Heq as -> _.
          right. rewrite decide_True by done. cbn. lia.
        * right. destruct (decide (l = entity)); cbn; lia.
      + intros Hin. destruct (IH _ _ Hin) as [Hin'|Hpos]; [by left|].
        right. destruct (decide (l = entity)); cbn; lia. }
  intros Hin. destruct (Hgen [] Hin) as [Hnil|Hpos]; [|exact Hpos].
  by apply elem_of_nil in Hnil.
Qed.

(** X25. Every frame advances an object once for each entry of the table
    that refers to it: twice as fast when it is registered under two
    identities, and not at all when it is not (or no longer) registered,
    in which case no completion callback is invoked for it either. *)
Theorem frames_per_registration (th : t) (entity : nat) (deltas : list num)
    (h : heap) :
  (frames h th deltas).1 !! entity
  = (fun e =>
       foldl (fun e deltaTime =>
                Nat.iter (registrations th entity)
                  (fun e => (advance deltaTime e).1) e) e deltas)
    <$> h !! entity /\
  (registrations th entity = 0 ->
   forall cb, (entity, cb) ∉ (frames h th deltas).2).
Proof.
  revert h. induction deltas as [|deltaTime rest IH]; intros h.
  - cbn. split; [by destruct (h !! entity)|]. intros _ cb Hin.
    by apply elem_of_nil in Hin.
  - cbn [frames foldl].
    pose proof (processAnimations_lookup th deltaTime entity h) as Hone.
    pose proof (fun cb => processAnimations_callbacks th deltaTime entity cb h) as Hcb.
    destruct (processAnimations h th deltaTime) as [h1 invoked]. cbn [fst snd] in *.
    destruct (IH h1) as [Hrest Hnone].
    destruct (frames h1 th rest) as [h2 later]. cbn [fst snd] in *.
    split.
    + rewrite Hrest, Hone. by destruct (h !! entity).
    + intros Hzero cb Hin. apply elem_of_app in Hin as [Hin|Hin].
      * specialize (Hcb cb Hin). lia.
      * exact (Hnone Hzero cb Hin).
Qed.


Lemma map_set_fresh {V : Type} (key : string) (v : V) (m : list (string * V)) :
  map_get key m = None -> map_set key v m = m ++ [(key, v)].
Proof.
  induction m as [|[k w] m IH]; cbn; [done|].
  destruct (decide (key = k)); [discriminate|]. intros H. by rewrite IH.
Qed.

Lemma map_set_same {V : Type} (key : string) (v : V) (m : list (string * V)) :
  map_get key m = Some v -> map_set key v m = m.
Proof.
  induction m as [|[k w] m IH]; cbn; [discriminate|].
  destruct (decide (key = k)) as [->|Hne]; [by intros [= ->]|].
  intros H. by rewrite IH.
Qed.

(** What [updateEntity] does to an object that is registered under its own
    identity or not registered at all. *)
Lemma updateEntity_own (h : heap) (th : t) (entity : nat) (e : VisualEntity)
    (updates : Updates) (animate : bool) :
  h !! entity = Some e -> u_id updates = None ->
  map_get (id e) (entities th) = None \/ map_get (id e) (entities th) = Some entity ->
  updateEntity h th entity updates animate
  = (<[entity :=
         assign updates
           match (if animate then u_position updates else None) with
           | Some target =>
               let anim :=
                 match animation e with
                 | Some a => a
                 | None => mkAnimationState false (of_Z 500) zero [] None
                 end in
               set_animation
                 (Some (mkAnimationState true (duration anim) zero
                          (map_set "position"
                             (mkAnimationProperty (VPos (position e)) (VPos target)
                                (VPos (position e)))
                             (properties anim))
                          (onComplete anim))) e
           | None => e
           end]> h,
     mkTheme (match map_get (id e) (entities th) with
              | Some _ => entities th
              | None => entities th ++ [(id e, entity)]
              end)).
Proof.
  intros Hlook Hid Hreg. unfold updateEntity. rewrite Hlook.
  assert (Hkey : default (id e) (u_id updates) = id e) by (by rewrite Hid).
  destruct Hreg as [Hreg|Hreg]; rewrite Hreg.
  - cbn [entities]. rewrite map_get_set_eq.
    cbn [mbind option_bind]. rewrite Hlook.
    cbn [fmap option_fmap option_map]. rewrite lookup_insert_eq.
    cbn [fmap option_fmap option_map default from_option Datatypes.id].
    destruct (if animate then u_position updates else None).
    + cbn [assign id set_animation]. rewrite Hkey.
      rewrite (map_set_same _ _ _ (map_get_set_eq _ _ _)).
      by rewrite (map_set_fresh (id e) entity _ Hreg).
    + cbn [assign id]. rewrite Hkey.
      rewrite (map_set_same _ _ _ (map_get_set_eq _ _ _)).
      by rewrite (map_set_fresh (id e) entity _ Hreg).
  - cbv beta iota zeta. rewrite Hreg. cbn [mbind option_bind]. rewrite Hlook.
    cbn [fmap option_fmap option_map]. rewrite lookup_insert_eq.
    cbn [fmap option_fmap option_map default from_option Datatypes.id].
    destruct (if animate then u_position updates else None).
    + cbn [assign id set_animation]. rewrite Hkey.
      by rewrite (map_set_same (id e) entity _ Hreg).
    + cbn [assign id]. rewrite Hkey.
      by rewrite (map_set_same (id e) entity _ Hreg).
Qed.

(** X26. An animated move ([updateEntity] with a new position) of an object
    that is registered under its own identity, or not at all, registers it
    and sets the object to the new position at once; the animation it starts
    runs from the position the object had to the new one, and takes over the
    duration and the completion callback that an earlier animation left on
    the object (500 ms and no callback when there was none), as well as the
    triples that animation tracked for other properties. *)
Theorem updateEntity_starts_move (h : heap) (th : t) (entity : nat)
    (e : VisualEntity) (target : Position) (updates : Updates) :
  h !! entity = Some e ->
  map_get (id e) (entities th) = None \/ map_get (id e) (entities th) = Some entity ->
  u_position updates = Some target -> u_animation updates = None ->
  u_id updates = None ->
  let after := updateEntity h th entity updates true in
  exists e' a',
    after.1 !! entity = Some e' /\
    (forall l, l <> entity -> after.1 !! l = h !! l) /\
    map_get (id e) (entities after.2) = Some entity /\
    id e' = id e /\ position e' = target /\ animation e' = Some a' /\
    active a' = true /\ elapsed a' = zero /\
    duration a' = from_option duration (of_Z 500) (animation e) /\
    onComplete a' = animation e ≫= onComplete /\
    map_get "position" (properties a')
    = Some (mkAnimationProperty (VPos (position e)) (VPos target) (VPos (position e))) /\
    (forall other, other <> "position" ->
       map_get other (properties a')
       = animation e ≫= fun a => map_get other (properties a)).
Proof.
  intros Hlook Hreg Hpos Hanim Hid. cbv zeta.
  rewrite (updateEntity_own h th entity e updates true Hlook Hid Hreg).
  rewrite Hpos. cbn [fst snd]. eexists _, _.
  split; [apply lookup_insert_eq|].
  split; [intros l Hne; by rewrite lookup_insert_ne|].
  split.
  { cbn [entities]. destruct Hreg as [Hreg|Hreg]; rewrite Hreg; [|exact Hreg].
    rewrite <- (map_set_fresh _ entity _ Hreg). apply map_get_set_eq. }
  unfold assign. rewrite Hpos, Hanim, Hid. cbn.
  split; [reflexivity|]. split; [reflexivity|]. split; [reflexivity|].
  cbn. split; [reflexivity|]. split; [reflexivity|].
  split; [by destruct (animation e)|]. split; [by destruct (animation e)|].
  split; [apply map_get_set_eq|].
  intros other Hne. rewrite map_get_set_ne by done. by destruct (animation e).
Qed.

Lemma frames_unregistered (th : t) (entity : nat) (deltas : list num) (h : heap) :
  registrations th entity = 0 ->
  (frames h th deltas).1 !! entity = h !! entity /\
  forall cb, (entity, cb) ∉ (frames h th deltas).2.
Proof.
  intros Hzero. revert h. induction deltas as [|deltaTime rest IH]; intros h.
  - cbn. split; [reflexivity|]. intros cb Hin. by apply elem_of_nil in Hin.
  - cbn [frames].
    pose proof (processAnimations_lookup th deltaTime entity h) as Hone.
    pose proof (fun cb => processAnimations_callbacks th deltaTime entity cb h) as Hcb.
    destruct (processAnimations h th deltaTime) as [h1 invoked]. cbn [fst snd] in *.
    destruct (IH h1) as [Hrest Hnone].
    destruct (frames h1 th rest) as [h2 later]. cbn [fst snd] in *.
    split.
    + rewrite Hrest, Hone, Hzero. by destruct (h !! entity).
    + intros cb Hin. apply elem_of_app in Hin as [Hin|Hin].
      * specialize (Hcb cb Hin). lia.
      * exact (Hnone cb Hin).
Qed.







Lemma registrations_delete (m : list (string * nat)) (key : string) (entity : nat) :
  map_get key m = Some entity ->
  S (length (filter (fun entry => entry.2 = entity) (map_delete key m)))
  = length (filter (fun entry => entry.2 = entity) m).
Proof.
  induction m as [|[k l] m IH]; cbn [map_get map_delete]; [discriminate|].
  destruct (decide (key = k)) as [->|Hne].
  - intros [= ->]. rewrite filter_cons. cbn [snd]. by rewrite decide_True.
  - intros Hget. rewrite !filter_cons. cbn [snd].
    destruct (decide (l = entity)); cbn [length]; by rewrite <- (IH Hget).
Qed.

(** X28. The theme's [removeEntity] only drops the entry of the table: the
    object keeps its fields, an animation that was running on it stays
    active for ever, as no later frame advances it, and its completion
    callback is never invoked. *)
Theorem removeEntity_freezes_animation (h : heap) (th : t) (entity : nat)
    (e : VisualEntity) (deltas : list num) :
  h !! entity = Some e ->
  map_get (id e) (entities th) = Some entity -> registrations th entity = 1 ->
  let th' := removeEntity th (id e) in
  registrations th' entity = 0 /\
  (frames h th' deltas).1 !! entity = Some e /\
  forall cb, (entity, cb) ∉ (frames h th' deltas).2.
Proof.
  intros Hlook Hget Hone. cbv zeta.
  assert (Hzero : registrations (removeEntity th (id e)) entity = 0).
  { pose proof (registrations_delete (entities th) (id e) entity Hget) as Hcount.
    unfold registrations in *. cbn [removeEntity entities]. lia. }
  split; [exact Hzero|].
  destruct (frames_unregistered (removeEntity th (id e)) entity deltas h Hzero)
    as [Hsame Hnone].
  split; [by rewrite Hsame|exact Hnone].
Qed.

End ThemeEntityFacts.

Lemma updateEntity_starts_move_witness :
  position <$>
    (ThemeEntities.updateEntity (Scenario.stage Scenario.still) Scenario.theme 1%nat
       (ThemeEntities.move_to Move.target) true).1 !! 1%nat
  = Some Move.target.
Proof.
  destruct (updateEntity_starts_move (Scenario.stage Scenario.still) Scenario.theme
              1%nat Scenario.still Move.target (ThemeEntities.move_to Move.target))
    as (e' & a' & Hlook & _ & _ & _ & Hposition & _).
  - apply lookup_singleton_eq.
  - right. reflexivity.
  - reflexivity.
  - reflexivity.
  - reflexivity.
  - rewrite Hlook. cbn. by rewrite Hposition.
Defined.


Lemma removeEntity_freezes_animation_witness :
  (BaseTheme.frames (Scenario.stage (Scenario.walker (Fin 1000)))
     (ThemeEntities.removeEntity Scenario.theme "agent-a1") [Fin 16; Fin 16]).1
  !! 1%nat
  = Some (Scenario.walker (Fin 1000)).
Proof.
  destruct (removeEntity_freezes_animation (Scenario.stage (Scenario.walker (Fin 1000)))
              Scenario.theme 1%nat (Scenario.walker (Fin 1000)) [Fin 16; Fin 16])
    as (_ & Hsame & _).
  - apply lookup_singleton_eq.
  - reflexivity.
  - reflexivity.
  - exact Hsame.
Defined.

(** *** The office floor plan *)
Section OfficeFloorFacts.
Import IsometricGrid OfficeFloor.

Lemma lay_spec (w h : Z) (g : t) (x y : Z) :
  well_formed g -> isInBounds g x y 0 = true ->
  exists g',
    lay w h g x y = Returned g' /\ well_formed g' /\ config g' = config g /\
    collect g' = collect g /\
    (forall k, laid w h x y k (cell_at g (Z.to_nat x) (Z.to_nat y) k)
                 (cell_at g' (Z.to_nat x) (Z.to_nat y) k)) /\
    (forall i j k, (i, j) <> (Z.to_nat x, Z.to_nat y) ->
       cell_at g' i j k = cell_at g i j k).
Proof.
  intros Hwf Hin.
  destruct (getCell_in_bounds g x y 0 Hwf Hin)
    as (g1 & c & row & col & Hget & Hwf1 & Hcfg1 & Hrow & Hcol & Hc & Hother & Hwas).
  destruct (getCell_collect g g1 x y 0 c Hget) as (_ & _ & b & a & Eg & Eset).
  change (Z.to_nat 0) with 0%nat in *.
  set (c0 := mkGridCell (cell_x c) (cell_y c) (cell_z c) true (entities c) floor).
  set (g2 := set_cell g1 x y 0 c0).
  assert (Hwf2 : well_formed g2) by (by apply set_cell_well_formed).
  assert (Hc0 : cell_at g2 (Z.to_nat x) (Z.to_nat y) 0 = Some c0).
  { by apply (cell_at_set_cell_eq g1 x y 0 c0 row col). }
  assert (Hrest2 : forall i j k, (i, j, k) <> (Z.to_nat x, Z.to_nat y, 0) ->
                     cell_at g2 i j k = cell_at g i j k).
  { intros i j k Hne. unfold g2. rewrite cell_at_set_cell_ne by done. by apply Hother. }
  assert (Hents : entities c0
                  = from_option entities [] (cell_at g (Z.to_nat x) (Z.to_nat y) 0)).
  { destruct Hwas as [->|[-> Hnil]]; [reflexivity|exact Hnil]. }
  assert (Hcollect2 : collect g2 = collect g) by (unfold g2; by rewrite Eset, Eg).
  unfold lay. rewrite Hget. cbn [mbind outcome_bind]. fold c0. fold g2.
  destruct (on_perimeter w h x y) eqn:Hperim.
  - assert (Hin2 : isInBounds g2 x y 1 = true).
    { apply isInBounds_spec. unfold g2. rewrite set_cell_config, Hcfg1.
      apply isInBounds_spec in Hin. lia. }
    destruct (getCell_in_bounds g2 x y 1 Hwf2 Hin2)
      as (g3 & c1 & row3 & col3 & Hget3 & Hwf3 & Hcfg3 & Hrow3 & Hcol3 & Hc1 & Hother3
          & Hwas3).
    destruct (getCell_collect g2 g3 x y 1 c1 Hget3) as (_ & _ & b3 & a3 & Eg3 & Eset3).
    change (Z.to_nat 1) with 1%nat in *.
    rewrite Hget3. cbn [mbind outcome_bind].
    set (w1 := mkGridCell (cell_x c1) (cell_y c1) (cell_z c1) false (entities c1) wall).
    eexists. split; [reflexivity|]. split; [by apply set_cell_well_formed|].
    split; [rewrite set_cell_config, Hcfg3; unfold g2; by rewrite set_cell_config|].
    split; [rewrite Eset3; unfold w1; cbn [entities]; by rewrite <- Eg3|]. split.
    + intros [|[|k]]; cbn [laid].
      * exists c0. rewrite cell_at_set_cell_ne by (intros [= ?]; done).
        rewrite Hother3 by (intros [= ?]; done). by repeat split.
      * rewrite Hperim. exists w1.
        pose proof (cell_at_set_cell_eq g3 x y 1 w1 row3 col3 Hrow3 Hcol3) as Hw1.
        change (Z.to_nat 1) with 1%nat in Hw1. rewrite Hw1.
        repeat split. unfold w1. cbn [entities].
        rewrite <- (Hrest2 _ _ 1) by (intros [= ?]; done).
        destruct Hwas3 as [->|[-> Hnil]]; [reflexivity|exact Hnil].
      * rewrite cell_at_set_cell_ne by (intros [= ?]; done).
        rewrite Hother3 by (intros [= ?]; done). apply Hrest2. by intros [= ?].
    + intros i j k Hne.
      rewrite cell_at_set_cell_ne by (intros [= -> -> _]; done).
      rewrite Hother3 by (intros [= -> -> _]; done).
      apply Hrest2. by intros [= -> -> _].
  - exists g2. split; [reflexivity|]. split; [exact Hwf2|].
    split; [unfold g2; by rewrite set_cell_config|]. split; [exact Hcollect2|]. split.
    + intros [|[|k]]; cbn [laid].
      * exists c0. by repeat split.
      * rewrite Hperim. apply Hrest2. by intros [= ?].
      * apply Hrest2. by intros [= ?].
    + intros i j k Hne. apply Hrest2. by intros [= -> -> _].
Qed.

(** The inner loop, over the cells [y0 .. y0 + len - 1] of row [x]. *)
Lemma lay_column (w h x : Z) (len : nat) (y0 : Z) (g : t) :
  well_formed g -> (0 <= x < width (config g))%Z ->
  (0 <= y0)%Z -> (y0 + Z.of_nat len <= height (config g))%Z ->
  exists g',
    for_each (fun g y => lay w h g x y) (seqZ y0 (Z.of_nat len)) g = Returned g' /\
    well_formed g' /\ config g' = config g /\ collect g' = collect g /\
    (forall y k, (y0 <= y < y0 + Z.of_nat len)%Z ->
       laid w h x y k (cell_at g (Z.to_nat x) (Z.to_nat y) k)
         (cell_at g' (Z.to_nat x) (Z.to_nat y) k)) /\
    (forall i j k,
       (forall y, (y0 <= y < y0 + Z.of_nat len)%Z -> (i, j) <> (Z.to_nat x, Z.to_nat y)) ->
       cell_at g' i j k = cell_at g i j k).
Proof.
  revert y0 g. induction len as [|len IH]; intros y0 g Hwf Hx Hy0 Hlen.
  - rewrite seqZ_nil by lia. exists g. do 4 (split; [done|]). split; [intros y k Hy; lia|done].
  - rewrite seqZ_cons by lia. cbn [for_each].
    replace (Z.pred (Z.of_nat (S len))) with (Z.of_nat len) by lia.
    destruct (lay_spec w h g x y0 Hwf) as (g1 & -> & Hwf1 & Hcfg1 & Hcol1 & Hlaid1 & Hrest1).
    { apply isInBounds_spec. lia. }
    cbn [mbind outcome_bind].
    destruct (IH (Z.succ y0) g1 Hwf1) as (g2 & -> & Hwf2 & Hcfg2 & Hcol2 & Hlaid2 & Hrest2);
      [rewrite Hcfg1; lia|lia|rewrite Hcfg1; lia|].
    exists g2. split; [reflexivity|]. split; [exact Hwf2|].
    split; [congruence|]. split; [congruence|]. split.
    + intros y k Hy. destruct (decide (y = y0)) as [->|Hne].
      * rewrite Hrest2; [apply Hlaid1|]. intros y' Hy' [= Heq]. lia.
      * rewrite <- (Hrest1 (Z.to_nat x) (Z.to_nat y) k) by (intros [= Heq]; lia).
        apply Hlaid2. lia.
    + intros i j k Hout. rewrite Hrest2, Hrest1; [reflexivity| |].
      * apply Hout. lia.
      * intros y Hy. apply Hout. lia.
Qed.

(** The outer loop, over the rows [x0 .. x0 + len - 1]. *)
Lemma lay_rows (w h H : Z) (len : nat) (x0 : Z) (g : t) :
  well_formed g -> height (config g) = H ->
  (0 <= x0)%Z -> (x0 + Z.of_nat len <= width (config g))%Z ->
  exists g',
    for_each (fun g x => for_each (fun g y => lay w h g x y) (seqZ 0 H) g)
      (seqZ x0 (Z.of_nat len)) g = Returned g' /\
    well_formed g' /\ config g' = config g /\ collect g' = collect g /\
    (forall x y k,
       (x0 <= x < x0 + Z.of_nat len)%Z -> (0 <= y < H)%Z ->
       laid w h x y k (cell_at g (Z.to_nat x) (Z.to_nat y) k)
         (cell_at g' (Z.to_nat x) (Z.to_nat y) k)) /\
    (forall i j k,
       (forall x, (x0 <= x < x0 + Z.of_nat len)%Z -> i <> Z.to_nat x) ->
       cell_at g' i j k = cell_at g i j k).
Proof.
  revert x0 g. induction len as [|len IH]; intros x0 g Hwf HH Hx0 Hlen.
  - rewrite (seqZ_nil x0) by lia. exists g. do 4 (split; [done|]).
    split; [intros x y k Hx; lia|done].
  - rewrite (seqZ_cons x0) by lia. cbn [for_each].
    replace (Z.pred (Z.of_nat (S len))) with (Z.of_nat len) by lia.
    assert (Hrow : exists g1,
              for_each (fun g y => lay w h g x0 y) (seqZ 0 H) g = Returned g1 /\
              well_formed g1 /\ config g1 = config g /\ collect g1 = collect g /\
              (forall y k, (0 <= y < H)%Z ->
                 laid w h x0 y k (cell_at g (Z.to_nat x0) (Z.to_nat y) k)
                   (cell_at g1 (Z.to_nat x0) (Z.to_nat y) k)) /\
              (forall i j k, i <> Z.to_nat x0 -> cell_at g1 i j k = cell_at g i j k)).
    { destruct (Z_le_gt_dec H 0) as [Hflat|Hhigh].
      - rewrite seqZ_nil by lia. exists g. do 4 (split; [done|]).
        split; [intros y k Hy; lia|done].
      - destruct (lay_column w h x0 (Z.to_nat H) 0 g Hwf)
          as (g1 & Hrun & Hwf1 & Hcfg1 & Hcol1 & Hlaid1 & Hrest1); try lia.
        rewrite Z2Nat.id in Hrun, Hlaid1, Hrest1 by lia.
        exists g1. do 5 (split; [done|]).
        intros i j k Hne. apply Hrest1. intros y Hy [= Heq _]. done. }
    destruct Hrow as (g1 & -> & Hwf1 & Hcfg1 & Hcol1 & Hlaid1 & Hrest1).
    cbn [mbind outcome_bind].
    destruct (IH (Z.succ x0) g1 Hwf1) as (g2 & -> & Hwf2 & Hcfg2 & Hcol2 & Hlaid2 & Hrest2);
      [by rewrite Hcfg1|lia|rewrite Hcfg1; lia|].
    exists g2. split; [reflexivity|]. split; [exact Hwf2|].
    split; [congruence|]. split; [congruence|]. split.
    + intros x y k Hx Hy. destruct (decide (x = x0)) as [->|Hne].
      * rewrite Hrest2; [by apply Hlaid1|]. intros x' Hx'. lia.
      * rewrite <- (Hrest1 (Z.to_nat x) (Z.to_nat y) k) by lia.
        apply Hlaid2; lia.
    + intros i j k Hout. rewrite Hrest2, Hrest1; [reflexivity| |].
      * apply Hout. lia.
      * intros x Hx. apply Hout. lia.
Qed.

(** X29. [createBasicOfficeFloor], on a grid with the shape the constructor
    builds, returns and neither adds, drops nor reorders an entity.
    Afterwards every ground cell inside the bounds, the perimeter included,
    is walkable floor: the walls it builds stand on layer 1 of the perimeter
    cells, where they are not walkable; layer 1 of the other cells and the
    layers above are as they were. *)
Theorem createBasicOfficeFloor_layout (g : t) :
  well_formed g ->
  exists g',
    createBasicOfficeFloor g = Returned g' /\
    well_formed g' /\ config g' = config g /\ collect g' = collect g /\
    forall x y, isInBounds g x y 0 = true ->
      isWalkable g' x y 0 = Returned (g', true) /\
      (exists c,
         cell_at g' (Z.to_nat x) (Z.to_nat y) 0 = Some c /\ type c = floor) /\
      (if on_perimeter (width (config g)) (height (config g)) x y then
         isWalkable g' x y 1 = Returned (g', false) /\
         exists c, cell_at g' (Z.to_nat x) (Z.to_nat y) 1 = Some c /\ type c = wall
       else
         cell_at g' (Z.to_nat x) (Z.to_nat y) 1 = cell_at g (Z.to_nat x) (Z.to_nat y) 1) /\
      forall k, 2 <= k ->
        cell_at g' (Z.to_nat x) (Z.to_nat y) k = cell_at g (Z.to_nat x) (Z.to_nat y) k.
Proof.
  intros Hwf. unfold createBasicOfficeFloor. cbv zeta.
  assert (Hrun : exists g',
            for_each
              (fun g0 x =>
                 for_each (fun g1 y => lay (width (config g)) (height (config g)) g1 x y)
                   (seqZ 0 (height (config g))) g0)
              (seqZ 0 (width (config g))) g = Returned g' /\
            well_formed g' /\ config g' = config g /\ collect g' = collect g /\
            forall x y k,
              (0 <= x < width (config g))%Z -> (0 <= y < height (config g))%Z ->
              laid (width (config g)) (height (config g)) x y k
                (cell_at g (Z.to_nat x) (Z.to_nat y) k)
                (cell_at g' (Z.to_nat x) (Z.to_nat y) k)).
  { destruct (Z_le_gt_dec (width (config g)) 0) as [Hthin|Hwide].
    - rewrite (seqZ_nil 0 (width (config g))) by lia. exists g.
      do 4 (split; [done|]). intros x y k Hx. lia.
    - destruct (lay_rows (width (config g)) (height (config g)) (height (config g))
                  (Z.to_nat (width (config g))) 0 g Hwf eq_refl)
        as (g' & Hrun & Hwf' & Hcfg' & Hcol' & Hlaid' & _); try lia.
      rewrite Z2Nat.id in Hrun, Hlaid' by lia.
      exists g'. do 4 (split; [done|]). intros x y k Hx Hy. apply Hlaid'; lia. }
  destruct Hrun as (g' & -> & Hwf' & Hcfg' & Hcol' & Hlaid').
  exists g'. split; [reflexivity|]. split; [exact Hwf'|]. split; [exact Hcfg'|].
  split; [exact Hcol'|]. intros x y Hin.
  pose proof Hin as Hb. apply isInBounds_spec in Hb as (Hx & Hy & _).
  assert (Hin0 : isInBounds g' x y 0 = true).
  { apply isInBounds_spec. rewrite Hcfg'. lia. }
  assert (Hin1 : isInBounds g' x y 1 = true).
  { apply isInBounds_spec. rewrite Hcfg'. lia. }
  pose proof (Hlaid' x y 0 Hx Hy) as (c0 & Hc0 & Hfloor & Hwalk & _).
  split.
  { unfold isWalkable. rewrite (getCell_stored g' x y 0 c0 Hwf' Hin0 Hc0).
    cbn. by rewrite Hwalk. }
  split; [by exists c0|]. split.
  - pose proof (Hlaid' x y 1 Hx Hy) as Hone. cbn [laid] in Hone.
    destruct (on_perimeter (width (config g)) (height (config g)) x y); [|exact Hone].
    destruct Hone as (c1 & Hc1 & Hwall & Hblocked & _). split; [|by exists c1].
    unfold isWalkable. rewrite (getCell_stored g' x y 1 c1 Hwf' Hin1 Hc1).
    cbn. by rewrite Hblocked.
  - intros k Hk. pose proof (Hlaid' x y k Hx Hy) as Hup.
    destruct k as [|[|k]]; [lia|lia|]. exact Hup.
Qed.

End OfficeFloorFacts.

Lemma createBasicOfficeFloor_layout_witness :
  exists g',
    OfficeFloor.createBasicOfficeFloor Plan.opened = Returned g' /\
    IsometricGrid.isWalkable g' 0 2 0 = Returned (g', true) /\
    IsometricGrid.isWalkable g' 0 2 1 = Returned (g', false).
Proof.
  destruct (createBasicOfficeFloor_layout Plan.opened)
    as (g' & Hrun & _ & _ & _ & Hcells).
  - split; [reflexivity|]. cbn. repeat constructor.
  - destruct (Hcells 0%Z 2%Z eq_refl) as (Hground & _ & Hwall & _).
    exists g'. split; [exact Hrun|]. split; [exact Hground|]. exact (proj1 Hwall).
Defined.

(** *** Theme configuration *)
Section ThemeConfigFacts.
Import ThemeManager.



End ThemeConfigFacts.
